(** * Microrheology: Fischer film viscosity and generalized Stokes-Einstein

    A shallow embedding of [mr/viscosity.py]: [fischer], [gse],
    [log_derivatives] and [_parabolic_spline].

    Conventions.
    - float64 numbers are idealised as real numbers ([R]); numpy arrays
      are one-dimensional arrays of floats, modelled as lists of reals.
    - The array that [log_derivatives] allocates and fills by index lives
      in a heap of array objects; the Python variables bound to it hold its
      location, so that two names of one array see each other's writes.
      Arrays that are only read are passed by value.  [G'] and [G''] in
      [gse] are fresh arrays with a single name: their masked assignment
      rebinds the name.
    - Python exceptions are the [Raise] outcomes of an error monad which
      also threads the heap and the records handed to [logger].
    - [np.polynomial.polynomial.polyfit] and [scipy.special.gamma] are
      parameters of the model; what is assumed of [polyfit] is stated as
      [least_squares] where a result depends on it.
    - The real numbers have no nan, no infinity and no float exception.
      The model follows the code where none arises: positive abscissae and
      a non-zero width in [log_derivatives] (elsewhere numpy hands nan to
      [polyfit], which raises LinAlgError), a non-zero [D] in [fischer] and
      a non-zero [a] in [gse] (Python's float division raises
      ZeroDivisionError), positive values under a logarithm and non-zero
      divisors in the array arithmetic.  The results below carry these
      conditions as hypotheses. *)

From Stdlib Require Import Reals Lra Lia RNsatz.
From stdpp Require Import base option list gmap.

#[local] Open Scope R_scope.

(** ** Outcomes, heap and log *)

Inductive exn : Type :=
| AssertionError
| IndexError
| ValueError.

Inductive result (A : Type) : Type :=
| Ok (a : A)
| Raise (e : exn).
Arguments Ok {A} a.
Arguments Raise {A} e.

(** The records the module sends to [logger], with their arguments. *)
Inductive logrec : Type :=
| InfoCoefficients (c0 c1 : R)
| InfoUnits (D a contact_angle radians bulk_visc : R)
| WarnMSD (m : R)
| WarnGs (m : R)
| InfoClippedGp
| InfoClippedGpp.

Definition loc : Type := nat.

Record world : Type := World {
  w_heap : gmap nat (list R);
  w_log : list logrec
}.

Definition empty_world : world := World ∅ [].

Definition M (A : Type) : Type := world → result (A * world).

#[global] Instance M_ret : MRet M := λ A a σ, Ok (a, σ).

#[global] Instance M_bind : MBind M := λ A B k m σ,
  match m σ with
  | Ok (a, σ') => k a σ'
  | Raise e => Raise e
  end.

Definition raise {A : Type} (e : exn) : M A := λ _, Raise e.

(** [assert cond] *)
Definition py_assert (cond : bool) : M unit :=
  if cond then mret tt else raise AssertionError.

(** [logger.info(...)] / [logger.warning(...)] *)
Definition emit (r : logrec) : M unit :=
  λ σ, Ok (tt, World (w_heap σ) (w_log σ ++ [r])).

(** A new array object. *)
Definition alloc (v : list R) : M loc :=
  λ σ, let l := fresh (dom (w_heap σ)) in
       Ok (l, World (<[l := v]> (w_heap σ)) (w_log σ)).

(** Reading the array behind a variable. *)
Definition load (l : loc) : M (list R) :=
  λ σ, match w_heap σ !! l with
       | Some v => Ok (v, σ)
       | None => Raise IndexError
       end.

(** [arr[i] = v]; numpy raises IndexError out of range. *)
Definition setitem (l : loc) (i : nat) (v : R) : M unit :=
  λ σ, match w_heap σ !! l with
       | Some arr =>
           if decide (i < length arr)%nat
           then Ok (tt, World (<[l := <[i := v]> arr]> (w_heap σ)) (w_log σ))
           else Raise IndexError
       | None => Raise IndexError
       end.

(** [for i, x in enumerate(l): body] with the running index [i]. *)
Fixpoint for_enumerate {A : Type} (body : nat → A → M unit)
    (i : nat) (l : list A) : M unit :=
  match l with
  | [] => mret tt
  | x :: l' => body i x ;; for_enumerate body (S i) l'
  end.

(** ** numpy primitives *)

Module Np.

#[global] Instance Rlt_decision : RelDecision Rlt := Rlt_dec.

Definition pi : R := PI.

(** [np.log]: numpy does not raise outside the domain, it returns nan or
    -inf there; the model is for positive arguments. *)
Definition log (x : R) : R := ln x.

(** [np.arctan2(y, x)] *)
Definition arctan2 (y x : R) : R :=
  if decide (0 < x) then atan (y / x)
  else if decide (x < 0) then
    (if decide (y < 0) then atan (y / x) - PI else atan (y / x) + PI)
  else if decide (0 < y) then PI / 2
  else if decide (y < 0) then - (PI / 2)
  else 0.

(** [np.zeros_like(f)] *)
Definition zeros_like (f : list R) : list R := replicate (length f) 0.

(** [arr.max()]; a zero-size array has no maximum. *)
Definition max (v : list R) : M R :=
  match v with
  | [] => raise ValueError
  | x :: v' => mret (foldl Rmax x v')
  end.

(** Elementwise arithmetic of two arrays of one shape. *)
Definition mul (u v : list R) : list R := zip_with Rmult u v.
Definition div (u v : list R) : list R := zip_with Rdiv u v.
Definition sub (u v : list R) : list R := zip_with Rminus u v.

(** [u < v], elementwise *)
Definition lt (u v : list R) : list bool :=
  zip_with (λ a b, bool_decide (a < b)) u v.

(** [np.any(mask)] *)
Definition any (mask : list bool) : bool := existsb (λ m : bool, m) mask.

(** [arr[mask] = c] *)
Definition setmask (arr : list R) (mask : list bool) (c : R) : list R :=
  zip_with (λ a (m : bool), if m then c else a) arr mask.

End Np.

(** ** [fischer] *)

Definition fischer_d (a contact_angle : R) : R :=
  a * (cos (contact_angle * Np.pi / 180) - 1).

Definition fischer_c0 (a contact_angle : R) : R :=
  let d := fischer_d a contact_angle in
  6 * Np.pi * sqrt (tanh (32 * (d / a + 2) / (9 * Np.pi ^ 2))).

Definition fischer_c1 (a contact_angle : R) : R :=
  let d := fischer_d a contact_angle in
  -4 * Np.log ((2 / Np.pi) * Np.arctan2 (d + 2 * a) (3 * a)).

(** For [D = 0] the division [kT/D] of line 27 is Python's and raises
    ZeroDivisionError: the model is for [D] other than [0]. *)
Definition fischer (D a contact_angle bulk_visc T : R) : M R :=
  let d := fischer_d a contact_angle in
  let c0 := fischer_c0 a contact_angle in
  let c1 := fischer_c1 a contact_angle in
  let kT := 4.1e-9 * T / 298 in
  emit (InfoCoefficients c0 c1) ;;
  emit (InfoUnits D a contact_angle (contact_angle * Np.pi / 180) bulk_visc) ;;
  let bulk_visc := bulk_visc * 1e-6 in
  let film_visc := (kT / D - bulk_visc * a * c0) / c1 in
  mret film_visc.

Definition bulk_visc_default : R := 1e-3.
Definition T_default : R := 298.

(** The specification's formula for the film viscosity (section 4.2). *)
Definition film_viscosity_spec (D a contact_angle bulk_visc T : R) : R :=
  let d := a * (cos (contact_angle * PI / 180) - 1) in
  let c0 := 6 * PI * sqrt (tanh (32 * (d / a + 2) / (9 * PI ^ 2))) in
  let c1 := -4 * ln ((2 / PI) * Np.arctan2 (d + 2 * a) (3 * a)) in
  let kT := 4.1e-9 * T / 298 in
  let bulk_visc_SI := bulk_visc * 1e-6 in
  (kT / D - bulk_visc_SI * a * c0) / c1.

(** ** Weighted least squares

    [np.polynomial.polynomial.polyfit(x, y, deg=2, w=w)] multiplies every
    residual by its weight and minimises the sum of their squares; the
    minimiser solves the normal equations below, whose matrix holds the
    moments of the abscissae under the squared weights. *)

(** The sum over the sample points of [w_j² v_j]. *)
Fixpoint wsum (w v : list R) : R :=
  match w, v with
  | wj :: w', vj :: v' => wj ^ 2 * vj + wsum w' v'
  | _, _ => 0
  end.

Definition moment (k : nat) (x w : list R) : R :=
  wsum w (map (λ u, u ^ k) x).

Definition moment_y (k : nat) (x y w : list R) : R :=
  wsum w (zip_with (λ u v, u ^ k * v) x y).

Definition det3 (a11 a12 a13 a21 a22 a23 a31 a32 a33 : R) : R :=
  a11 * (a22 * a33 - a23 * a32)
  - a12 * (a21 * a33 - a23 * a31)
  + a13 * (a21 * a32 - a22 * a31).

Definition normal_det (x w : list R) : R :=
  let S := λ k, moment k x w in
  det3 (S 0%nat) (S 1%nat) (S 2%nat)
       (S 1%nat) (S 2%nat) (S 3%nat)
       (S 2%nat) (S 3%nat) (S 4%nat).

Definition normal_equations (x y w : list R) (cba : R * R * R) : Prop :=
  let '(c, b, a) := cba in
  let S := λ k, moment k x w in
  let Y := λ k, moment_y k x y w in
  c * S 0%nat + b * S 1%nat + a * S 2%nat = Y 0%nat ∧
  c * S 1%nat + b * S 2%nat + a * S 3%nat = Y 1%nat ∧
  c * S 2%nat + b * S 3%nat + a * S 4%nat = Y 2%nat.

(** What is assumed of a [polyfit]: on a well-posed problem it returns
    the least-squares coefficients [(c, b, a)]. *)
Definition least_squares (polyfit : list R → list R → list R → R * R * R) : Prop :=
  ∀ x y w : list R,
    length y = length x → length w = length x →
    normal_det x w ≠ 0 → normal_equations x y w (polyfit x y w).

(** The exact solver: Cramer's rule on the normal equations. *)
Definition lstsq_polyfit (x y w : list R) : R * R * R :=
  let S := λ k, moment k x w in
  let Y := λ k, moment_y k x y w in
  let Δ := normal_det x w in
  (det3 (Y 0%nat) (S 1%nat) (S 2%nat)
        (Y 1%nat) (S 2%nat) (S 3%nat)
        (Y 2%nat) (S 3%nat) (S 4%nat) / Δ,
   det3 (S 0%nat) (Y 0%nat) (S 2%nat)
        (S 1%nat) (Y 1%nat) (S 3%nat)
        (S 2%nat) (Y 2%nat) (S 4%nat) / Δ,
   det3 (S 0%nat) (S 1%nat) (Y 0%nat)
        (S 1%nat) (S 2%nat) (Y 1%nat)
        (S 2%nat) (S 3%nat) (Y 2%nat) / Δ).

(** On a single sample the problem is under-determined and numpy's
    [lstsq] returns the minimum-norm solution of the system whose columns
    [polyfit] has scaled to norm one (a column of zeros is left as it
    is): for the sample [(u, v)] with a non-zero weight every scaled
    coefficient is [v / 3], that is [(c, b, a) = (v/3, v/(3u), v/(3u²))],
    and [(v, 0, 0)] when [u = 0]. *)
Definition one_sample_fit (u v ω : R) : R * R * R :=
  if Req_EM_T ω 0 then (0, 0, 0)
  else if Req_EM_T u 0 then (v, 0, 0)
  else (v / 3, v / (3 * u), v / (3 * u ^ 2)).

(** A [polyfit] that is numpy's on a single sample and the exact solver
    on more. *)
Definition minimum_norm_polyfit (x y w : list R) : R * R * R :=
  match x, y, w with
  | [u], [v], [ω] => one_sample_fit u v ω
  | _, _, _ => lstsq_polyfit x y w
  end.

(** The quadratic form of the adjugate of the moment matrix at
    [(1, u, u²)]. *)
Definition adj_form (x w : list R) (u : R) : R :=
  let S := λ k, moment k x w in
  (S 2%nat * S 4%nat - S 3%nat ^ 2)
  - 2 * (S 1%nat * S 4%nat - S 2%nat * S 3%nat) * u
  + (2 * (S 1%nat * S 3%nat - S 2%nat ^ 2) + (S 0%nat * S 4%nat - S 2%nat ^ 2)) * u ^ 2
  - 2 * (S 0%nat * S 3%nat - S 1%nat * S 2%nat) * u ^ 3
  + (S 0%nat * S 2%nat - S 1%nat ^ 2) * u ^ 4.

(** The weighted sum of the squared Vandermonde determinants of
    [(t, v, u)] over the samples [t]. *)
Definition vdm_sum (x w : list R) (v u : R) : R :=
  wsum w (map (λ t, ((u - v) * (t - u) * (t - v)) ^ 2) x).

(** Three pairwise distinct abscissae occur among the samples. *)
Definition three_distinct (x : list R) : Prop :=
  ∃ p q r : R, p ∈ x ∧ q ∈ x ∧ r ∈ x ∧ p ≠ q ∧ p ≠ r ∧ q ≠ r.

(** Sample points [1], [e], [e²] and sample values for them. *)
Definition sample_x : list R := [1; exp 1; exp 2].
Definition sample_f : list R := [2; 1; 3].

(** ** [log_derivatives], [_parabolic_spline] and [gse] *)

Definition width_default : R := 0.7.
Definition clip_default : R := 0.03.

Section Viscosity.

(** [np.polynomial.polynomial.polyfit] at degree 2, returning [(c, b, a)],
    and [scipy.special.gamma]. *)
Variable polyfit : list R → list R → list R → R * R * R.
Variable Gamma : R → R.

(** The weight of [xj] in the fit centred at [x0], for a [width] other
    than [0]. *)
Definition gaussian (x0 width xj : R) : R :=
  exp (- (xj - x0) ^ 2 / (2 * width ^ 2)).

Definition _parabolic_spline (x f : list R) (x0 width : R) : R * R * R :=
  let weights := map (gaussian x0 width) x in
  let '(c, b, a) := polyfit x f weights in
  (c, b, a).

(** One iteration of the loop of [log_derivatives]. *)
Definition log_derivatives_body (logx logf : list R) (width : R)
    (smooth_f df ddf : loc) (i : nat) (x0 : R) : M unit :=
  let '(c, b, a) := _parabolic_spline logx logf x0 width in
  setitem smooth_f i (exp (a * x0 ^ 2 + b * x0 + c)) ;;
  setitem df i (2 * a * x0 + b) ;;
  setitem ddf i (2 * a).

Definition log_derivatives (x f : list R) (width : R) : M (loc * loc * loc) :=
  py_assert (bool_decide (length x = length f)) ;;
  let logx := map Np.log x in
  let logf := map Np.log f in
  arr ← alloc (Np.zeros_like f) ;
  let smooth_f := arr in
  let df := arr in
  let ddf := arr in
  for_enumerate (log_derivatives_body logx logf width smooth_f df ddf) 0 logx ;;
  mret (smooth_f, df, ddf).

(** Twice the quadratic coefficient of the fit centred at [x0]. *)
Definition curvature (logx logf : list R) (width x0 : R) : R :=
  let '(c, b, a) := _parabolic_spline logx logf x0 width in
  2 * a.

Definition curvatures (x f : list R) (width : R) : list R :=
  map (curvature (map Np.log x) (map Np.log f) width) (map Np.log x).

(** [log_derivatives] followed by a read of the three returned arrays. *)
Definition log_derivatives_values (x f : list R) (width : R)
    : M (list R * list R * list R) :=
  '(smooth_f, df, ddf) ← log_derivatives x f width ;
  smooth_f ← load smooth_f ; df ← load df ; ddf ← load ddf ;
  mret (smooth_f, df, ddf).

(** [if np.abs(dd).max() > 0.15: logger.warning(...)] *)
Definition quality_check (warn : R → logrec) (dd : loc) : M unit :=
  v ← load dd ;
  m ← Np.max (map Rabs v) ;
  if bool_decide (0.15 < m) then emit (warn m) else mret tt.

(** [gse] up to the moduli of lines 47 and 48, before the clipping.  For
    [a = 0] the division by [pi*a] of line 41 is Python's and raises
    ZeroDivisionError: the model is for [a] other than [0]. *)
Definition gse_unclipped (t r2 : list R) (a T width : R)
    : M (list R * list R * list R * list R) :=
  let kT := 4.1e-9 * T / 298 in
  let DIM := 2 in
  let w := map (λ ti, 1 / ti) t in
  let s := w in
  '(f, df, ddf) ← log_derivatives t r2 width_default ;
  quality_check WarnMSD ddf ;;
  f ← load f ; df ← load df ; ddf ← load ddf ;
  let G_s :=
    map (λ v, (DIM / 3) * kT / (Np.pi * a) / v)
        (Np.mul (Np.mul f (map (λ v, Gamma (1 + v)) df))
                (map (λ v, 1 + v / 2) ddf)) in
  '(g, dg, ddg) ← log_derivatives s G_s width_default ;
  quality_check WarnGs ddg ;;
  g ← load g ; dg ← load dg ; ddg ← load ddg ;
  let Gp :=
    Np.mul (Np.div g (map (λ v, 1 + v) ddg))
           (Np.sub (map (λ v, cos (Np.pi / 2 * v)) dg)
                   (Np.mul (map (λ v, (Np.pi / 2 - 1) * v) dg) ddg)) in
  let Gpp :=
    Np.mul (Np.div g (map (λ v, 1 + v) ddg))
           (Np.sub (map (λ v, sin (Np.pi / 2 * v)) dg)
                   (Np.mul (map (λ v, (Np.pi / 2 - 1) * (1 - v)) dg) ddg)) in
  mret (w, G_s, Gp, Gpp).

(** [if np.any(G < clip*G_s): G[G < clip*G_s] = 0; logger.info(...)],
    returning the array then bound to [G]. *)
Definition clip_noise (note : logrec) (clip : R) (G_s G : list R) : M (list R) :=
  if Np.any (Np.lt G (map (Rmult clip) G_s))
  then
    let G' := Np.setmask G (Np.lt G (map (Rmult clip) G_s)) 0 in
    emit note ;; mret G'
  else mret G.

Definition gse (t r2 : list R) (a T clip width : R)
    : M (list R * list R * list R * list R) :=
  '(w, G_s, Gp, Gpp) ← gse_unclipped t r2 a T width ;
  Gp ← clip_noise InfoClippedGp clip G_s Gp ;
  Gpp ← clip_noise InfoClippedGpp clip G_s Gpp ;
  mret (w, G_s, Gp, Gpp).

(** The arithmetic of [gse] stays finite: [a] is not [0], the [G_s] of
    line 41 is positive (its divisors are not [0] and its logarithm
    exists) and no [1 + ddg] of lines 47 and 48 is [0]. *)
Definition gse_finite (t r2 : list R) (a T : R) : Prop :=
  let v := curvatures t r2 width_default in
  let G_s :=
    map (λ v, 2 / 3 * (4.1e-9 * T / 298) / (PI * a)
              / (v * Gamma (1 + v) * (1 + v / 2))) v in
  let u := curvatures (map (λ ti, 1 / ti) t) G_s width_default in
  a ≠ 0 ∧ Forall (Rlt 0) G_s ∧ Forall (λ u, 1 + u ≠ 0) u.

End Viscosity.

(** [m] is an entry of [v] that no entry exceeds. *)
Definition is_maximum (m : R) (v : list R) : Prop :=
  m ∈ v ∧ ∀ y : R, y ∈ v → y <= m.

(** Sample values on the log-parabola [log f = (log x)²]. *)
Definition sample_curved : list R :=
  map (λ xi, exp (0 + 0 * Np.log xi + 1 * Np.log xi ^ 2)) sample_x.

(** * Properties

    ** The Fischer model *)

Lemma arctan2_pos_x (y x : R) : 0 < x → Np.arctan2 y x = atan (y / x).
Proof. intros Hx. unfold Np.arctan2. by rewrite decide_True. Qed.

Lemma atan_pos (z : R) : 0 < z → 0 < atan z.
Proof. intros Hz. rewrite <- atan_0. by apply atan_increasing. Qed.

Lemma fischer_d_right_angle (a : R) : fischer_d a 90 = - a.
Proof.
  unfold fischer_d, Np.pi.
  replace (90 * PI / 180) with (PI / 2) by lra.
  rewrite cos_PI2. ring.
Qed.

Lemma fischer_c1_pos (a contact_angle : R) :
  0 < a → -1 < cos (contact_angle * PI / 180) → 0 < fischer_c1 a contact_angle.
Proof.
  intros Ha Hcos. unfold fischer_c1, fischer_d, Np.log, Np.pi.
  rewrite arctan2_pos_x by lra.
  set (z := (a * (cos (contact_angle * PI / 180) - 1) + 2 * a) / (3 * a)).
  assert (Hz : 0 < z).
  { unfold z. apply Rdiv_lt_0_compat; nra. }
  pose proof (atan_pos z Hz) as Hlo.
  pose proof (atan_bound z) as [_ Hhi].
  pose proof PI_RGT_0 as Hpi.
  assert (H0 : 0 < 2 / PI * atan z).
  { apply Rmult_lt_0_compat; [apply Rdiv_lt_0_compat; lra | done]. }
  assert (H1 : 2 / PI * atan z < 1).
  { apply Rmult_lt_reg_l with (r := PI / 2); [lra |].
    replace (PI / 2 * (2 / PI * atan z)) with (atan z) by (field; lra). lra. }
  assert (ln (2 / PI * atan z) < 0).
  { rewrite <- ln_1. by apply ln_increasing. }
  lra.
Qed.

Lemma fischer_c1_right_angle (a : R) :
  0 < a → fischer_c1 a 90 = -4 * ln (2 / PI * atan (1 / 3)).
Proof.
  intros Ha. unfold fischer_c1. rewrite fischer_d_right_angle.
  unfold Np.log, Np.pi. rewrite arctan2_pos_x by lra.
  replace ((- a + 2 * a) / (3 * a)) with (1 / 3) by (field; lra). done.
Qed.

(** The run of [fischer]: its value, and the two records it logs. *)
Lemma fischer_run (D a contact_angle bulk_visc T : R) (σ : world) :
  fischer D a contact_angle bulk_visc T σ =
    Ok (film_viscosity_spec D a contact_angle bulk_visc T,
        World (w_heap σ)
              (w_log σ ++ [InfoCoefficients (fischer_c0 a contact_angle)
                                            (fischer_c1 a contact_angle);
                           InfoUnits D a contact_angle
                                     (contact_angle * PI / 180) bulk_visc])).
Proof.
  unfold fischer, mbind, M_bind, emit, mret, M_ret.
  cbn [w_log w_heap]. rewrite <- app_assoc. reflexivity.
Qed.

(** C6.  For [D > 0] and [a > 0], [fischer] returns the film viscosity
    of the specification's formula; it leaves the heap alone and its only
    effect is two records appended to the log. *)
Theorem fischer_formula (D a contact_angle bulk_visc T : R) (σ : world) :
  0 < D → 0 < a →
  fischer D a contact_angle bulk_visc T σ =
    Ok (film_viscosity_spec D a contact_angle bulk_visc T,
        World (w_heap σ)
              (w_log σ ++ [InfoCoefficients (fischer_c0 a contact_angle)
                                            (fischer_c1 a contact_angle);
                           InfoUnits D a contact_angle
                                     (contact_angle * PI / 180) bulk_visc])).
Proof. intros _ _. apply fischer_run. Qed.

(** C6 at [D = 0.5], [a = 1], a right angle and the default bulk
    viscosity and temperature. *)
Lemma fischer_formula_witness :
  0 < 0.5 ∧ 0 < 1 ∧
  fischer 0.5 1 90 bulk_visc_default T_default empty_world =
    Ok (film_viscosity_spec 0.5 1 90 bulk_visc_default T_default,
        World ∅ [InfoCoefficients (fischer_c0 1 90) (fischer_c1 1 90);
                 InfoUnits 0.5 1 90 (90 * PI / 180) bulk_visc_default]).
Proof.
  split; [lra|]. split; [lra|].
  apply (fischer_formula 0.5 1 90 bulk_visc_default T_default empty_world); lra.
Defined.

(** C8, refuted as stated: at a right angle and radius [1], [d] is not
    [0]. *)
Lemma fischer_d_right_angle_nonzero : fischer_d 1 90 ≠ 0.
Proof. rewrite fischer_d_right_angle. lra. Qed.

(** C8, as amended.  For every radius [a > 0] a contact angle of 90
    degrees gives [d = - a] and [c1 = -4 ln ((2/π) atan (1/3)) > 0]; with
    [D = 0.5], [a = 1], [bulk_visc = 1e-3], [T = 298] the division is by
    this positive [c1] and [fischer] returns the one value below. *)
Theorem fischer_right_angle (a : R) (σ : world) :
  0 < a →
  fischer_d a 90 = - a ∧
  fischer_c1 a 90 = -4 * ln (2 / PI * atan (1 / 3)) ∧
  0 < fischer_c1 a 90 ∧
  fischer 0.5 1 90 1e-3 298 σ =
    Ok ((8.2e-9 - 1e-9 * (6 * PI * sqrt (tanh (32 / (9 * PI ^ 2)))))
          / (-4 * ln (2 / PI * atan (1 / 3))),
        World (w_heap σ)
              (w_log σ ++ [InfoCoefficients (fischer_c0 1 90) (fischer_c1 1 90);
                           InfoUnits 0.5 1 90 (90 * PI / 180) 1e-3])).
Proof.
  intros Ha. split; [apply fischer_d_right_angle|].
  split; [by apply fischer_c1_right_angle|]. split.
  { apply fischer_c1_pos; [done|].
    replace (90 * PI / 180) with (PI / 2) by lra. rewrite cos_PI2. lra. }
  rewrite fischer_run. do 2 f_equal.
  unfold film_viscosity_spec.
  replace (90 * PI / 180) with (PI / 2) by lra. rewrite cos_PI2.
  rewrite arctan2_pos_x by lra.
  replace ((1 * (0 - 1) + 2 * 1) / (3 * 1)) with (1 / 3) by lra.
  replace (32 * (1 * (0 - 1) / 1 + 2) / (9 * PI ^ 2)) with (32 / (9 * PI ^ 2))
    by (field; apply PI_neq0).
  f_equal. lra.
Qed.

(** C8, as amended, at radius [1]. *)
Lemma fischer_right_angle_witness :
  0 < 1 ∧ fischer_d 1 90 = - 1 ∧ 0 < fischer_c1 1 90.
Proof.
  split; [lra|].
  pose proof (fischer_right_angle 1 empty_world ltac:(lra)) as (Hd & _ & Hc & _).
  by split.
Defined.

(** ** Moments and normal equations *)

Lemma moment_cons (k : nat) (u ω : R) (x w : list R) :
  moment k (u :: x) (ω :: w) = ω ^ 2 * u ^ k + moment k x w.
Proof. done. Qed.

(** Data on a parabola: the right-hand sides are combinations of moments. *)
Lemma moment_y_parabola (k : nat) (c b a : R) (x w : list R) :
  moment_y k x (map (λ u, c + b * u + a * u ^ 2) x) w =
    c * moment k x w + b * moment (k + 1) x w + a * moment (k + 2) x w.
Proof.
  unfold moment_y, moment. revert w.
  induction x as [|u x IH]; intros [|ω w]; simpl; try lra.
  rewrite IH. rewrite !pow_add. ring.
Qed.

(** Adding [s] to every ordinate. *)
Lemma moment_y_shift_y (k : nat) (s : R) (x y w : list R) :
  length y = length x →
  moment_y k x (map (λ v, s + v) y) w = moment_y k x y w + s * moment k x w.
Proof.
  unfold moment_y, moment. revert y w.
  induction x as [|u x IH]; intros [|v y] [|ω w] Hlen; simpl in *; try lra; try lia.
  rewrite IH by lia. ring.
Qed.

(** Adding [s] to every abscissa. *)
Lemma moment_shift_x (s : R) (x w : list R) :
  let x' := map (λ u, u + s) x in
  let S := λ k, moment k x w in
  moment 0 x' w = S 0%nat ∧
  moment 1 x' w = S 1%nat + s * S 0%nat ∧
  moment 2 x' w = S 2%nat + 2 * s * S 1%nat + s ^ 2 * S 0%nat ∧
  moment 3 x' w = S 3%nat + 3 * s * S 2%nat + 3 * s ^ 2 * S 1%nat + s ^ 3 * S 0%nat ∧
  moment 4 x' w = S 4%nat + 4 * s * S 3%nat + 6 * s ^ 2 * S 2%nat
                  + 4 * s ^ 3 * S 1%nat + s ^ 4 * S 0%nat.
Proof.
  cbv zeta. unfold moment. revert w.
  induction x as [|u x IH]; intros [|ω w]; simpl; try (repeat split; lra).
  destruct (IH w) as (E0 & E1 & E2 & E3 & E4). simpl in *.
  rewrite E0, E1, E2, E3, E4. repeat split; ring.
Qed.

Lemma moment_y_shift_x (s : R) (x y w : list R) :
  let x' := map (λ u, u + s) x in
  let Y := λ k, moment_y k x y w in
  moment_y 0 x' y w = Y 0%nat ∧
  moment_y 1 x' y w = Y 1%nat + s * Y 0%nat ∧
  moment_y 2 x' y w = Y 2%nat + 2 * s * Y 1%nat + s ^ 2 * Y 0%nat.
Proof.
  cbv zeta. unfold moment_y. revert y w.
  induction x as [|u x IH]; intros [|v y] [|ω w]; simpl; try (repeat split; lra).
  destruct (IH y w) as (E0 & E1 & E2). simpl in *.
  rewrite E0, E1, E2. repeat split; ring.
Qed.

(** *** The normal equations *)

Lemma normal_equations_unique (x y w : list R) (c b a c' b' a' : R) :
  normal_det x w ≠ 0 →
  normal_equations x y w (c, b, a) → normal_equations x y w (c', b', a') →
  (c, b, a) = (c', b', a').
Proof.
  unfold normal_det, normal_equations, det3.
  generalize (moment 0 x w) (moment 1 x w) (moment 2 x w) (moment 3 x w)
    (moment 4 x w) (moment_y 0 x y w) (moment_y 1 x y w) (moment_y 2 x y w).
  intros S0 S1 S2 S3 S4 Y0 Y1 Y2 HΔ (E0 & E1 & E2) (F0 & F1 & F2).
  set (Δ := S0 * (S2 * S4 - S3 * S3) - S1 * (S1 * S4 - S3 * S2)
            + S2 * (S1 * S3 - S2 * S2)) in HΔ.
  assert (Hc : (c - c') * Δ = 0) by (unfold Δ; nsatz).
  assert (Hb : (b - b') * Δ = 0) by (unfold Δ; nsatz).
  assert (Ha : (a - a') * Δ = 0) by (unfold Δ; nsatz).
  apply Rmult_integral in Hc, Hb, Ha.
  destruct Hc, Hb, Ha; try done.
  repeat f_equal; lra.
Qed.

Lemma lstsq_polyfit_least_squares : least_squares lstsq_polyfit.
Proof.
  intros x y w _ _. unfold normal_det, normal_equations, lstsq_polyfit, normal_det, det3.
  generalize (moment 0 x w) (moment 1 x w) (moment 2 x w) (moment 3 x w)
    (moment 4 x w) (moment_y 0 x y w) (moment_y 1 x y w) (moment_y 2 x y w).
  intros S0 S1 S2 S3 S4 Y0 Y1 Y2 HΔ.
  repeat split; field; exact HΔ.
Qed.

(** ** Non-singular normal equations *)

Lemma vdm_sum_moments (x w : list R) (v u : R) :
  vdm_sum x w v u =
    (u - v) ^ 2 * (moment 4 x w - 2 * (u + v) * moment 3 x w
                   + ((u + v) ^ 2 + 2 * u * v) * moment 2 x w
                   - 2 * u * v * (u + v) * moment 1 x w
                   + (u * v) ^ 2 * moment 0 x w).
Proof.
  unfold vdm_sum, moment. revert w.
  induction x as [|t x IH]; intros [|ω w]; cbn [wsum map]; try lra.
  rewrite IH. ring.
Qed.

Lemma normal_det_cons (v ω : R) (x w : list R) :
  normal_det (v :: x) (ω :: w) = normal_det x w + ω ^ 2 * adj_form x w v.
Proof. unfold normal_det, adj_form, det3. rewrite !moment_cons. ring. Qed.

Lemma adj_form_cons (v ω u : R) (x w : list R) :
  adj_form (v :: x) (ω :: w) u = adj_form x w u + ω ^ 2 * vdm_sum x w v u.
Proof.
  rewrite vdm_sum_moments. unfold adj_form. rewrite !moment_cons. ring.
Qed.

Lemma pow2_gt_0 (z : R) : z ≠ 0 → 0 < z ^ 2.
Proof. intros Hz. pose proof (pow2_ge_0 z). destruct (Req_dec (z ^ 2) 0) as [E|E]; [|lra].
  exfalso. apply Hz. nra. Qed.

Lemma sq_vdm_pos (t v u : R) :
  u ≠ v → t ≠ u → t ≠ v → 0 < ((u - v) * (t - u) * (t - v)) ^ 2.
Proof.
  intros. apply pow2_gt_0. repeat apply Rmult_integral_contrapositive_currified; lra.
Qed.

Lemma vdm_sum_nonneg (x w : list R) (v u : R) : 0 <= vdm_sum x w v u.
Proof.
  unfold vdm_sum. revert w.
  induction x as [|t x IH]; intros [|ω w]; cbn [wsum map]; try lra.
  specialize (IH w).
  pose proof (pow2_ge_0 ω). pose proof (pow2_ge_0 ((u - v) * (t - u) * (t - v))).
  nra.
Qed.

Lemma vdm_sum_pos (x w : list R) (v u t : R) :
  length w = length x → Forall (λ ω, ω ≠ 0) w →
  u ≠ v → t ∈ x → t ≠ u → t ≠ v → 0 < vdm_sum x w v u.
Proof.
  intros Hlen Hw Huv Ht Htu Htv. revert w Hlen Hw.
  induction x as [|t' x IH]; intros [|ω w] Hlen Hw; simplify_eq/=;
    [by apply elem_of_nil in Ht|].
  apply Forall_cons in Hw as [Hω Hw].
  unfold vdm_sum. cbn [wsum map]. fold (vdm_sum x w v u).
  pose proof (vdm_sum_nonneg x w v u) as Hrest.
  assert (0 < ω ^ 2) by (by apply pow2_gt_0).
  apply elem_of_cons in Ht as [<-|Ht].
  - pose proof (sq_vdm_pos t v u Huv Htu Htv). nra.
  - specialize (IH Ht w Hlen Hw).
    pose proof (pow2_ge_0 ((u - v) * (t' - u) * (t' - v))). nra.
Qed.

Lemma adj_form_nonneg (x w : list R) (u : R) : 0 <= adj_form x w u.
Proof.
  revert w. induction x as [|v x IH]; intros [|ω w].
  1-3: unfold adj_form, moment; cbn [wsum map]; try destruct w; cbn [wsum]; lra.
  rewrite adj_form_cons. specialize (IH w).
  pose proof (vdm_sum_nonneg x w v u). pose proof (pow2_ge_0 ω). nra.
Qed.

Lemma adj_form_pos (x w : list R) (u p q : R) :
  length w = length x → Forall (λ ω, ω ≠ 0) w →
  p ∈ x → q ∈ x → p ≠ q → p ≠ u → q ≠ u → 0 < adj_form x w u.
Proof.
  intros Hlen Hw Hp Hq Hpq Hpu Hqu. revert w Hlen Hw.
  induction x as [|v x IH]; intros [|ω w] Hlen Hw; simplify_eq/=;
    [by apply elem_of_nil in Hp|].
  apply Forall_cons in Hw as [Hω Hw].
  rewrite adj_form_cons.
  assert (0 < ω ^ 2) by (by apply pow2_gt_0).
  pose proof (adj_form_nonneg x w u). pose proof (vdm_sum_nonneg x w v u).
  apply elem_of_cons in Hp as [->|Hp]; apply elem_of_cons in Hq as [->|Hq].
  - done.
  - assert (0 < vdm_sum x w v u) by (apply (vdm_sum_pos x w v u q); auto). nra.
  - assert (0 < vdm_sum x w v u) by (apply (vdm_sum_pos x w v u p); auto). nra.
  - specialize (IH Hp Hq w Hlen Hw). nra.
Qed.

Lemma normal_det_nonneg (x w : list R) : 0 <= normal_det x w.
Proof.
  revert w. induction x as [|v x IH]; intros [|ω w].
  1-3: unfold normal_det, det3, moment; cbn [wsum map]; try destruct w; cbn [wsum]; lra.
  rewrite normal_det_cons. specialize (IH w).
  pose proof (adj_form_nonneg x w v). pose proof (pow2_ge_0 ω). nra.
Qed.

(** With three distinct abscissae and non-zero weights the normal
    equations are non-singular. *)
Lemma normal_det_pos (x w : list R) :
  length w = length x → Forall (λ ω, ω ≠ 0) w → three_distinct x →
  0 < normal_det x w.
Proof.
  intros Hlen Hw (p & q & r & Hp & Hq & Hr & Hpq & Hpr & Hqr). revert w Hlen Hw.
  induction x as [|v x IH]; intros [|ω w] Hlen Hw; simplify_eq/=;
    [by apply elem_of_nil in Hp|].
  apply Forall_cons in Hw as [Hω Hw].
  rewrite normal_det_cons.
  assert (0 < ω ^ 2) by (by apply pow2_gt_0).
  pose proof (normal_det_nonneg x w). pose proof (adj_form_nonneg x w v).
  apply elem_of_cons in Hp as [->|Hp]; apply elem_of_cons in Hq as [->|Hq];
    apply elem_of_cons in Hr as [->|Hr]; try done.
  - assert (0 < adj_form x w v) by (apply (adj_form_pos x w v q r); auto). nra.
  - assert (0 < adj_form x w v) by (apply (adj_form_pos x w v p r); auto). nra.
  - assert (0 < adj_form x w v) by (apply (adj_form_pos x w v p q); auto). nra.
  - specialize (IH Hp Hq Hr w Hlen Hw). nra.
Qed.

(** ** The loop of [log_derivatives] *)

(** *** Running the monad *)

Lemma bind_Ok {A B : Type} (m : M A) (k : A → M B) (σ σ' : world) (a : A) :
  m σ = Ok (a, σ') → (m ≫= k) σ = k a σ'.
Proof. intros E. unfold mbind, M_bind. by rewrite E. Qed.

Lemma bind_Raise {A B : Type} (m : M A) (k : A → M B) (σ : world) (e : exn) :
  m σ = Raise e → (m ≫= k) σ = Raise e.
Proof. intros E. unfold mbind, M_bind. by rewrite E. Qed.

Lemma setitem_Ok (h : gmap nat (list R)) (lg : list logrec) (l : loc)
    (arr : list R) (i : nat) (v : R) :
  h !! l = Some arr → (i < length arr)%nat →
  setitem l i v (World h lg) = Ok (tt, World (<[l := <[i := v]> arr]> h) lg).
Proof.
  intros Hl Hi. unfold setitem. cbn [w_heap w_log]. rewrite Hl.
  by rewrite decide_True.
Qed.

Lemma load_Ok (h : gmap nat (list R)) (lg : list logrec) (l : loc) (arr : list R) :
  h !! l = Some arr → load l (World h lg) = Ok (arr, World h lg).
Proof. intros Hl. unfold load. cbn [w_heap]. by rewrite Hl. Qed.

(** The three reads of one freshly written array. *)
Ltac run_loads :=
  do 3 (erewrite bind_Ok; [|apply load_Ok, lookup_insert_eq]).

Section Smoother.

Variable polyfit : list R → list R → list R → R * R * R.

(** One iteration writes three times into the one array behind
    [smooth_f], [df] and [ddf]; the last write stays. *)
Lemma log_derivatives_body_shared (logx logf : list R) (width : R) (l : loc)
    (h : gmap nat (list R)) (lg : list logrec) (arr : list R) (i : nat) (x0 : R) :
  h !! l = Some arr → (i < length arr)%nat →
  log_derivatives_body polyfit logx logf width l l l i x0 (World h lg) =
    Ok (tt, World (<[l := <[i := curvature polyfit logx logf width x0]> arr]> h) lg).
Proof.
  intros Hl Hi. unfold log_derivatives_body, curvature.
  destruct (_parabolic_spline polyfit logx logf x0 width) as [[c b] a].
  erewrite bind_Ok; [|by apply setitem_Ok].
  erewrite bind_Ok;
    [|apply setitem_Ok; [apply lookup_insert_eq | by rewrite length_insert]].
  rewrite setitem_Ok with (arr := <[i:=2 * a * x0 + b]> (<[i:=exp (a * x0 ^ 2 + b * x0 + c)]> arr));
    [|apply lookup_insert_eq | by rewrite !length_insert].
  by rewrite !insert_insert_eq, !list_insert_insert_eq.
Qed.

Lemma log_derivatives_loop (logx logf : list R) (width : R) (l : loc)
    (lg : list logrec) (todo : list R) :
  ∀ (i : nat) (h : gmap nat (list R)) (arr : list R),
    h !! l = Some arr → length arr = (i + length todo)%nat →
    for_enumerate (log_derivatives_body polyfit logx logf width l l l) i todo
      (World h lg) =
    Ok (tt, World (<[l := take i arr ++ map (curvature polyfit logx logf width) todo]> h) lg).
Proof.
  induction todo as [|x0 todo IH]; intros i h arr Hl Hlen; cbn [for_enumerate map length] in *.
  - rewrite app_nil_r, firstn_all2 by lia. by rewrite insert_id.
  - erewrite bind_Ok; [|apply log_derivatives_body_shared; [done | lia]].
    rewrite (IH (S i) _ (<[i := curvature polyfit logx logf width x0]> arr));
      [|apply lookup_insert_eq | rewrite length_insert; lia].
    rewrite insert_insert_eq. do 3 f_equal.
    rewrite (take_S_r _ _ (curvature polyfit logx logf width x0));
      [|apply list_lookup_insert_eq; lia].
    rewrite take_insert_ge by lia. by rewrite <- app_assoc.
Qed.

(** With equal lengths [log_derivatives] returns; its three results are
    one location, whose array holds the curvatures. *)
Lemma log_derivatives_run (x f : list R) (width : R) (σ : world) :
  length x = length f →
  log_derivatives polyfit x f width σ =
    let l := fresh (dom (w_heap σ)) in
    Ok ((l, l, l),
        World (<[l := curvatures polyfit x f width]> (w_heap σ)) (w_log σ)).
Proof.
  intros Hlen. unfold log_derivatives, py_assert.
  rewrite bool_decide_true by done.
  erewrite bind_Ok; [|reflexivity].
  erewrite bind_Ok; [|reflexivity].
  erewrite bind_Ok.
  2:{ apply log_derivatives_loop with (arr := Np.zeros_like f).
      - apply lookup_insert_eq.
      - unfold Np.zeros_like. rewrite length_replicate, length_map. lia. }
  cbn [take app]. by rewrite insert_insert_eq.
Qed.

Lemma log_derivatives_mismatch (x f : list R) (width : R) (σ : world) :
  length x ≠ length f →
  log_derivatives polyfit x f width σ = Raise AssertionError.
Proof.
  intros Hlen. unfold log_derivatives, py_assert.
  rewrite bool_decide_false by done. done.
Qed.

Lemma log_derivatives_values_run (x f : list R) (width : R) (σ : world) :
  length x = length f →
  log_derivatives_values polyfit x f width σ =
    let v := curvatures polyfit x f width in
    Ok ((v, v, v),
        World (<[fresh (dom (w_heap σ)) := v]> (w_heap σ)) (w_log σ)).
Proof.
  intros Hlen. unfold log_derivatives_values.
  erewrite bind_Ok; [|by apply log_derivatives_run].
  cbv beta iota zeta.
  run_loads. done.
Qed.

End Smoother.

(** ** Fits under shifts of the data *)

Lemma three_distinct_fmap (g : R → R) (x : list R) :
  (∀ p q, p ∈ x → q ∈ x → g p = g q → p = q) →
  three_distinct x → three_distinct (map g x).
Proof.
  intros Hinj (p & q & r & Hp & Hq & Hr & Hpq & Hpr & Hqr).
  exists (g p), (g q), (g r).
  repeat split; try (by apply list_elem_of_fmap_2); intros E; eauto.
Qed.

Lemma three_distinct_log (x : list R) :
  Forall (Rlt 0) x → three_distinct x → three_distinct (map Np.log x).
Proof.
  intros Hpos. apply three_distinct_fmap. intros p q Hp Hq E.
  rewrite Forall_forall in Hpos. apply ln_inv; auto.
Qed.

Lemma three_distinct_shift (s : R) (x : list R) :
  three_distinct x → three_distinct (map (λ u, u + s) x).
Proof. apply three_distinct_fmap. intros p q _ _ E. lra. Qed.

Lemma log_scaled (k : R) (x : list R) :
  0 < k → Forall (Rlt 0) x →
  map Np.log (map (Rmult k) x) = map (λ u, Np.log k + u) (map Np.log x).
Proof.
  intros Hk Hpos. rewrite <- !list_fmap_compose.
  apply Forall_fmap_ext. eapply Forall_impl; [exact Hpos|].
  intros xi Hxi. simpl. unfold Np.log. by apply ln_mult.
Qed.

Lemma log_power_law (k p : R) (x : list R) :
  0 < k → Forall (Rlt 0) x →
  map Np.log (map (λ xi, k * Rpower xi p) x) =
    map (λ u, Np.log k + p * u + 0 * u ^ 2) (map Np.log x).
Proof.
  intros Hk Hpos. rewrite <- !list_fmap_compose.
  apply Forall_fmap_ext. eapply Forall_impl; [exact Hpos|].
  intros xi Hxi. simpl. unfold Np.log, Rpower.
  rewrite ln_mult by (auto using exp_pos). rewrite ln_exp. ring.
Qed.

Lemma gaussian_pos (x0 width xj : R) : 0 < gaussian x0 width xj.
Proof. apply exp_pos. Qed.

Lemma gaussian_weights_nonzero (x0 width : R) (x : list R) :
  Forall (λ ω, ω ≠ 0) (map (gaussian x0 width) x).
Proof.
  apply Forall_fmap, Forall_forall. intros xj _. simpl.
  pose proof (gaussian_pos x0 width xj). lra.
Qed.

Lemma gaussian_shift (s x0 width : R) (x : list R) :
  map (gaussian (x0 + s) width) (map (λ u, u + s) x) = map (gaussian x0 width) x.
Proof.
  rewrite <- list_fmap_compose. apply list_fmap_ext. intros _ u _. simpl.
  unfold gaussian. do 2 f_equal. ring.
Qed.

Lemma gaussian_well_posed (x0 width : R) (x : list R) :
  three_distinct x → normal_det x (map (gaussian x0 width) x) ≠ 0.
Proof.
  intros Hx.
  pose proof (normal_det_pos x (map (gaussian x0 width) x)
                (length_map _ _) (gaussian_weights_nonzero _ _ _) Hx).
  lra.
Qed.

Section Fit.

Variable polyfit : list R → list R → list R → R * R * R.
Hypothesis polyfit_least_squares : least_squares polyfit.

Lemma spline_normal (x y : list R) (x0 width : R) :
  three_distinct x → length y = length x →
  normal_equations x y (map (gaussian x0 width) x)
    (_parabolic_spline polyfit x y x0 width).
Proof.
  intros Hx Hy. unfold _parabolic_spline.
  pose proof (polyfit_least_squares x y (map (gaussian x0 width) x) Hy
                (length_map _ _) (gaussian_well_posed x0 width x Hx)) as H.
  by destruct (polyfit x y (map (gaussian x0 width) x)) as [[c b] a].
Qed.

(** Data that lie on a parabola are fitted by that parabola. *)
Lemma spline_parabola (c b a : R) (x : list R) (x0 width : R) :
  three_distinct x →
  _parabolic_spline polyfit x (map (λ u, c + b * u + a * u ^ 2) x) x0 width = (c, b, a).
Proof.
  intros Hx.
  pose proof (spline_normal x (map (λ u, c + b * u + a * u ^ 2) x) x0 width Hx
                (length_map _ _)) as H.
  destruct (_parabolic_spline _ _ _ _ _) as [[c' b'] a'].
  eapply normal_equations_unique; [by apply gaussian_well_posed | exact H |].
  unfold normal_equations. rewrite !moment_y_parabola. simpl. repeat split; ring.
Qed.

(** Adding a constant to the ordinates leaves the curvature. *)
Lemma curvature_shift_y (s : R) (x y : list R) (width x0 : R) :
  three_distinct x → length y = length x →
  curvature polyfit x (map (λ v, s + v) y) width x0 = curvature polyfit x y width x0.
Proof.
  intros Hx Hy. unfold curvature.
  pose proof (spline_normal x y x0 width Hx Hy) as H.
  assert (Hy' : length (map (λ v, s + v) y) = length x) by (by rewrite length_map).
  pose proof (spline_normal x _ x0 width Hx Hy') as H'.
  destruct (_parabolic_spline polyfit x y x0 width) as [[c b] a].
  destruct (_parabolic_spline polyfit x (map _ y) x0 width) as [[c' b'] a'].
  assert (E : (c + s, b, a) = (c', b', a')); [|by simplify_eq].
  eapply normal_equations_unique; [by apply gaussian_well_posed | | exact H'].
  unfold normal_equations in *. rewrite !moment_y_shift_y by done.
  destruct H as (E0 & E1 & E2). repeat split; lra.
Qed.

(** Adding a constant to the abscissae, and to the centre, leaves the
    curvature. *)
Lemma curvature_shift_x (s : R) (x y : list R) (width x0 : R) :
  three_distinct x → length y = length x →
  curvature polyfit (map (λ u, u + s) x) y width (x0 + s) =
    curvature polyfit x y width x0.
Proof.
  intros Hx Hy. unfold curvature.
  pose proof (spline_normal x y x0 width Hx Hy) as H.
  assert (Hy' : length y = length (map (λ u, u + s) x)) by (by rewrite length_map).
  pose proof (spline_normal _ y (x0 + s) width (three_distinct_shift s x Hx) Hy') as H'.
  destruct (_parabolic_spline polyfit x y x0 width) as [[c b] a].
  destruct (_parabolic_spline polyfit (map _ x) y (x0 + s) width) as [[c' b'] a'].
  assert (E : (c, b, a) = (c' + b' * s + a' * s ^ 2, b' + 2 * a' * s, a'));
    [|by simplify_eq].
  eapply normal_equations_unique; [by apply gaussian_well_posed | exact H |].
  rewrite gaussian_shift in H'. unfold normal_equations in *.
  destruct (moment_shift_x s x (map (gaussian x0 width) x)) as (S0 & S1 & S2 & S3 & S4).
  destruct (moment_y_shift_x s x y (map (gaussian x0 width) x)) as (Y0 & Y1 & Y2).
  cbv zeta in *. rewrite S0, S1, S2, S3, S4, Y0, Y1, Y2 in H'.
  revert H'.
  generalize (moment 0 x (map (gaussian x0 width) x))
    (moment 1 x (map (gaussian x0 width) x)) (moment 2 x (map (gaussian x0 width) x))
    (moment 3 x (map (gaussian x0 width) x)) (moment 4 x (map (gaussian x0 width) x))
    (moment_y 0 x y (map (gaussian x0 width) x))
    (moment_y 1 x y (map (gaussian x0 width) x))
    (moment_y 2 x y (map (gaussian x0 width) x)).
  intros m0 m1 m2 m3 m4 y0 y1 y2 (E0 & E1 & E2).
  subst y0.
  assert (E1' : y1 = c' * (m1 + s * m0) + b' * (m2 + 2 * s * m1 + s ^ 2 * m0)
                + a' * (m3 + 3 * s * m2 + 3 * s ^ 2 * m1 + s ^ 3 * m0)
                - s * (c' * m0 + b' * (m1 + s * m0)
                       + a' * (m2 + 2 * s * m1 + s ^ 2 * m0))) by lra.
  subst y1.
  repeat split; [ring | ring | lra].
Qed.

End Fit.

(** ** Running [gse] *)

Lemma zip_with_map_l {A B C : Type} (f : A → B → C) (g : A → B) (l : list A) :
  zip_with f l (map g l) = map (λ x, f x (g x)) l.
Proof. induction l as [|x l IH]; simpl; by f_equal. Qed.

Lemma zip_with_map_map {A B C D : Type} (f : B → C → D) (g : A → B) (h : A → C)
    (l : list A) :
  zip_with f (map g l) (map h l) = map (λ x, f (g x) (h x)) l.
Proof. induction l as [|x l IH]; simpl; by f_equal. Qed.

Lemma zip_with_map_r_self {A B C : Type} (f : B → A → C) (g : A → B) (l : list A) :
  zip_with f (map g l) l = map (λ x, f (g x) x) l.
Proof. induction l as [|x l IH]; simpl; by f_equal. Qed.

Lemma quality_check_Ok (warn : R → logrec) (l : loc) (h : gmap nat (list R))
    (lg : list logrec) (v : list R) :
  h !! l = Some v → v ≠ [] →
  ∃ lg', quality_check warn l (World h lg) = Ok (tt, World h lg').
Proof.
  intros Hl Hv. unfold quality_check.
  erewrite bind_Ok; [|by apply load_Ok].
  destruct v as [|v0 v]; [done|]. cbn [map Np.max].
  erewrite bind_Ok; [|reflexivity].
  case_bool_decide; eexists; reflexivity.
Qed.

Lemma setmask_lt (clip : R) (G_s G : list R) :
  Np.setmask G (Np.lt G (map (Rmult clip) G_s)) 0 =
    zip_with (λ p s, if decide (p < clip * s) then 0 else p) G G_s.
Proof.
  unfold Np.setmask, Np.lt. revert G_s.
  induction G as [|p G IH]; intros [|s G_s]; cbn [zip_with map]; try done.
  rewrite IH. f_equal. by case_bool_decide; [rewrite decide_True|rewrite decide_False].
Qed.

Lemma setmask_none (G : list R) (mask : list bool) (c : R) :
  length mask = length G → Np.any mask = false → Np.setmask G mask c = G.
Proof.
  unfold Np.any, Np.setmask. revert mask.
  induction G as [|p G IH]; intros [|m mask] Hlen Hany; simplify_eq/=; try done.
  apply orb_false_elim in Hany as [-> Hany]. f_equal. by apply IH.
Qed.

Lemma length_lt (u v : list R) : length v = length u → length (Np.lt u v) = length u.
Proof. intros E. unfold Np.lt. rewrite length_zip_with. lia. Qed.

Lemma clip_noise_Ok (note : logrec) (clip : R) (G_s G : list R) (σ : world) :
  length G = length G_s →
  ∃ σ', clip_noise note clip G_s G σ =
          Ok (zip_with (λ p s, if decide (p < clip * s) then 0 else p) G G_s, σ').
Proof.
  intros Hlen. unfold clip_noise.
  destruct (Np.any _) eqn:Hany.
  - rewrite setmask_lt. eexists. reflexivity.
  - exists σ. rewrite <- setmask_lt, setmask_none; [done | | done].
    apply length_lt. by rewrite length_map.
Qed.

Lemma lookup_clipped (clip : R) (G G_s : list R) (i : nat) (p s : R) :
  G !! i = Some p → G_s !! i = Some s →
  zip_with (λ p s, if decide (p < clip * s) then 0 else p) G G_s !! i =
    Some (if decide (p < clip * s) then 0 else p).
Proof. intros Hp Hs. rewrite lookup_zip_with, Hp. simpl. by rewrite Hs. Qed.

Section Modulus.

Variable polyfit : list R → list R → list R → R * R * R.
Variable Gamma : R → R.

Lemma length_curvatures (x f : list R) (width : R) :
  length (curvatures polyfit x f width) = length x.
Proof. unfold curvatures. by rewrite !length_map. Qed.

(** With [f], [df], [ddf] one array [v] and [g], [dg], [ddg] one array
    [u], the arithmetic of [gse] collapses to functions of [v] and [u]. *)
Lemma gse_unclipped_run (t r2 : list R) (a T width : R) (σ : world) :
  length t = length r2 → t ≠ [] →
  let v := curvatures polyfit t r2 width_default in
  let s := map (λ ti, 1 / ti) t in
  let G_s :=
    map (λ v, 2 / 3 * (4.1e-9 * T / 298) / (PI * a)
              / (v * Gamma (1 + v) * (1 + v / 2))) v in
  let u := curvatures polyfit s G_s width_default in
  let Gp :=
    map (λ u, u / (1 + u) * (cos (PI / 2 * u) - (PI / 2 - 1) * u * u)) u in
  let Gpp :=
    map (λ u, u / (1 + u) * (sin (PI / 2 * u) - (PI / 2 - 1) * (1 - u) * u)) u in
  ∃ σ', gse_unclipped polyfit Gamma t r2 a T width σ = Ok ((s, G_s, Gp, Gpp), σ').
Proof.
  intros Hlen Ht v s G_s u Gp Gpp. unfold gse_unclipped.
  destruct σ as [h lg].
  erewrite bind_Ok; [|by apply log_derivatives_run].
  cbv beta iota zeta. cbn [w_heap w_log].
  set (l := fresh (dom h)). fold v.
  assert (Hv : v ≠ []).
  { intros E. apply (f_equal length) in E. unfold v in E.
    rewrite length_curvatures in E. by destruct t. }
  destruct (quality_check_Ok WarnMSD l (<[l:=v]> h) lg v) as [lg1 E1];
    [apply lookup_insert_eq | done |].
  erewrite bind_Ok; [|exact E1]. run_loads.
  assert (EG : map (λ v0, 2 / 3 * (4.1e-9 * T / 298) / (Np.pi * a) / v0)
                 (Np.mul (Np.mul v (map (λ v0, Gamma (1 + v0)) v))
                    (map (λ v0, 1 + v0 / 2) v)) = G_s).
  { unfold Np.mul, G_s, Np.pi. rewrite zip_with_map_l, zip_with_map_map.
    by rewrite <- list_fmap_compose. }
  rewrite EG.
  erewrite bind_Ok.
  2:{ apply log_derivatives_run. unfold s, G_s, v.
      by rewrite !length_map, length_curvatures. }
  cbv beta iota zeta. cbn [w_heap w_log].
  set (l' := fresh (dom (<[l:=v]> h))). fold s u.
  assert (Hu : u ≠ []).
  { intros E. apply (f_equal length) in E. unfold u, s in E.
    rewrite length_curvatures, length_map in E. by destruct t. }
  destruct (quality_check_Ok WarnGs l' (<[l':=u]> (<[l:=v]> h)) lg1 u) as [lg2 E2];
    [apply lookup_insert_eq | done |].
  erewrite bind_Ok; [|exact E2]. run_loads.
  eexists. unfold mret, M_ret. do 3 f_equal.
  - f_equal. unfold Np.mul, Np.div, Np.sub, Gp, Np.pi.
    rewrite zip_with_map_l, zip_with_map_r_self, zip_with_map_map, zip_with_map_map.
    apply list_fmap_ext. intros _ z _. simpl. unfold Rdiv. ring.
  - unfold Np.mul, Np.div, Np.sub, Gpp, Np.pi.
    rewrite zip_with_map_l, zip_with_map_r_self, zip_with_map_map, zip_with_map_map.
    apply list_fmap_ext. intros _ z _. simpl. unfold Rdiv. ring.
Qed.

End Modulus.

(** ** Curvatures of power laws and of rescaled curves *)

Lemma sample_x_pos : Forall (Rlt 0) sample_x.
Proof. repeat constructor; try lra; apply exp_pos. Qed.

Lemma sample_f_pos : Forall (Rlt 0) sample_f.
Proof. repeat constructor; lra. Qed.

Lemma sample_x_distinct : three_distinct sample_x.
Proof.
  pose proof (exp_ineq1 1 ltac:(lra)) as H1.
  pose proof (exp_increasing 1 2 ltac:(lra)) as H2.
  exists 1, (exp 1), (exp 2). unfold sample_x.
  repeat split; try lra; set_solver.
Qed.

Create HintDb sample discriminated.
#[local] Hint Resolve lstsq_polyfit_least_squares sample_x_pos sample_f_pos
  sample_x_distinct : sample.
#[local] Hint Extern 1 (0 < _) => (unfold width_default; lra) : sample.
#[local] Hint Extern 1 (_ ≠ 0) => (unfold width_default; lra) : sample.

Section Curvatures.

Variable polyfit : list R → list R → list R → R * R * R.
Variable Gamma : R → R.

Lemma curvatures_lookup (x f : list R) (width : R) (i : nat) (xi c b a : R) :
  x !! i = Some xi →
  _parabolic_spline polyfit (map Np.log x) (map Np.log f) (Np.log xi) width = (c, b, a) →
  curvatures polyfit x f width !! i = Some (2 * a).
Proof.
  intros Hi Hfit. unfold curvatures. rewrite !list_lookup_fmap, Hi. simpl.
  unfold curvature. by rewrite Hfit.
Qed.

(** On a power law every fit is the line [log k + p u], so every
    curvature vanishes. *)
Lemma power_law_fit (x : list R) (k p width x0 : R) :
  least_squares polyfit → Forall (Rlt 0) x → three_distinct x → 0 < k →
  _parabolic_spline polyfit (map Np.log x)
      (map Np.log (map (λ xi, k * Rpower xi p) x)) x0 width = (Np.log k, p, 0).
Proof.
  intros Hls Hpos Hx Hk. rewrite log_power_law by done.
  apply spline_parabola; [done | by apply three_distinct_log].
Qed.

Lemma power_law_curvatures (x : list R) (k p width : R) :
  least_squares polyfit → Forall (Rlt 0) x → three_distinct x → 0 < k →
  curvatures polyfit x (map (λ xi, k * Rpower xi p) x) width = replicate (length x) 0.
Proof.
  intros Hls Hpos Hx Hk. unfold curvatures.
  erewrite list_fmap_ext with (g := λ _, 0).
  2:{ intros _ x0 _. unfold curvature. rewrite power_law_fit by done. lra. }
  rewrite <- list_fmap_compose. clear. induction x; simpl; by f_equal.
Qed.

Lemma curvatures_scale_f (x f : list R) (k width : R) :
  least_squares polyfit → Forall (Rlt 0) x → Forall (Rlt 0) f →
  length x = length f → three_distinct x → 0 < k →
  curvatures polyfit x (map (Rmult k) f) width = curvatures polyfit x f width.
Proof.
  intros Hls Hx Hf Hlen H3 Hk. unfold curvatures.
  rewrite log_scaled by done. apply list_fmap_ext. intros _ x0 _.
  apply curvature_shift_y; [done | by apply three_distinct_log |].
  by rewrite !length_map.
Qed.

Lemma curvatures_scale_x (x f : list R) (k width : R) :
  least_squares polyfit → Forall (Rlt 0) x → Forall (Rlt 0) f →
  length x = length f → three_distinct x → 0 < k →
  curvatures polyfit (map (Rmult k) x) f width = curvatures polyfit x f width.
Proof.
  intros Hls Hx Hf Hlen H3 Hk. unfold curvatures.
  rewrite log_scaled by done.
  erewrite list_fmap_ext with (l := map Np.log x) (g := λ u, u + Np.log k);
    [|intros; simpl; lra].
  rewrite <- (list_fmap_compose (λ u, u + Np.log k)).
  apply list_fmap_ext. intros _ x0 _. simpl.
  apply curvature_shift_x; [done | by apply three_distinct_log |].
  by rewrite !length_map.
Qed.

End Curvatures.

(** ** The smoother and the modulus *)

Section Claims.

Variable polyfit : list R → list R → list R → R * R * R.
Variable Gamma : R → R.

(** C2.  For positive [x] and [f] of equal lengths and a non-zero width,
    the three results of [log_derivatives] are one location: read after
    the call, the smoothed values, the first derivatives and the second
    derivatives are the same array [v], whose entry [i] is [2 * a_i],
    twice the quadratic coefficient of the fit centred at [log x_i].
    Hence in [gse], on a non-empty curve where its arithmetic stays
    finite, [f], [df] and [ddf] are one array and [g], [dg] and [ddg] are
    one array, and the moduli are the functions of these two arrays given
    below. *)
Theorem log_derivatives_shared_array (x f : list R) (width a T : R) (σ : world) :
  length x = length f → Forall (Rlt 0) x → Forall (Rlt 0) f → width ≠ 0 →
  let v := curvatures polyfit x f width in
  (∃ (l : loc) (σ' : world),
     log_derivatives polyfit x f width σ = Ok ((l, l, l), σ') ∧
     w_heap σ' !! l = Some v) ∧
  (∃ σ' : world,
     log_derivatives_values polyfit x f width σ = Ok ((v, v, v), σ')) ∧
  (∀ (i : nat) (xi c b a_i : R),
     x !! i = Some xi →
     _parabolic_spline polyfit (map Np.log x) (map Np.log f) (Np.log xi) width
       = (c, b, a_i) →
     v !! i = Some (2 * a_i)) ∧
  (x ≠ [] → gse_finite polyfit Gamma x f a T →
   let f_df_ddf := curvatures polyfit x f width_default in
   let s := map (λ ti, 1 / ti) x in
   let G_s :=
     map (λ v, 2 / 3 * (4.1e-9 * T / 298) / (PI * a)
               / (v * Gamma (1 + v) * (1 + v / 2))) f_df_ddf in
   let g_dg_ddg := curvatures polyfit s G_s width_default in
   let Gp :=
     map (λ u, u / (1 + u) * (cos (PI / 2 * u) - (PI / 2 - 1) * u * u)) g_dg_ddg in
   let Gpp :=
     map (λ u, u / (1 + u) * (sin (PI / 2 * u) - (PI / 2 - 1) * (1 - u) * u))
         g_dg_ddg in
   ∃ σ' : world,
     gse_unclipped polyfit Gamma x f a T width σ = Ok ((s, G_s, Gp, Gpp), σ')).
Proof.
  intros Hlen _ _ _ v. repeat split.
  - eexists _, _. split; [by apply log_derivatives_run|].
    cbn [w_heap]. apply lookup_insert_eq.
  - eexists. by apply log_derivatives_values_run.
  - intros i xi c b a0. apply curvatures_lookup.
  - intros Hx _. by apply gse_unclipped_run.
Qed.

(** C3.  On a power law [f = k x^p] sampled at positive points, three of
    them distinct, every fit is [(c, b, a) = (log k, p, 0)]; the arrays
    read after [log_derivatives] are all zero.  The second derivative is
    [0], and so is what is returned as first derivative, whatever [p]. *)
Theorem power_law_log_derivatives (x : list R) (k p width : R) (σ : world) :
  least_squares polyfit → Forall (Rlt 0) x → three_distinct x →
  0 < k → 0 < width →
  let f := map (λ xi, k * Rpower xi p) x in
  let zeros := replicate (length x) 0 in
  (∀ x0 : R,
     _parabolic_spline polyfit (map Np.log x) (map Np.log f) x0 width
       = (Np.log k, p, 0)) ∧
  ∃ σ' : world,
    log_derivatives_values polyfit x f width σ = Ok ((zeros, zeros, zeros), σ').
Proof.
  intros Hls Hpos Hx Hk _ f zeros. split.
  - intros x0. by apply power_law_fit.
  - eexists. rewrite log_derivatives_values_run by (unfold f; by rewrite length_map).
    cbv zeta. unfold f. rewrite power_law_curvatures by done. reflexivity.
Qed.

(** C4.  [gse] behaves for every [width] as it does for the default
    [0.7]: both calls of [log_derivatives] leave the bandwidth out. *)
Theorem gse_ignores_width (t r2 : list R) (a T clip width : R) (σ : world) :
  gse polyfit Gamma t r2 a T clip width σ =
    gse polyfit Gamma t r2 a T clip width_default σ.
Proof. reflexivity. Qed.

(** C5.  On a non-empty curve of equal lengths with positive lag times,
    and for a radius other than [0], [gse] returns, and its moduli are
    those before clipping with, independently at each index and for each
    of [G'] and [G''], the entries strictly below [clip * G_s] set to [0]
    and all the others unchanged. *)
Theorem gse_clipping (t r2 : list R) (a T clip width : R) (σ : world) :
  length t = length r2 → t ≠ [] → a ≠ 0 → Forall (Rlt 0) t →
  ∃ (w G_s Gp0 Gpp0 Gp Gpp : list R) (σ0 σ' : world),
    gse_unclipped polyfit Gamma t r2 a T width σ = Ok ((w, G_s, Gp0, Gpp0), σ0) ∧
    gse polyfit Gamma t r2 a T clip width σ = Ok ((w, G_s, Gp, Gpp), σ') ∧
    length G_s = length t ∧
    length Gp0 = length t ∧ length Gpp0 = length t ∧
    length Gp = length t ∧ length Gpp = length t ∧
    ∀ (i : nat) (p q s : R),
      Gp0 !! i = Some p → Gpp0 !! i = Some q → G_s !! i = Some s →
      Gp !! i = Some (if decide (p < clip * s) then 0 else p) ∧
      Gpp !! i = Some (if decide (q < clip * s) then 0 else q).
Proof.
  intros Hlen Ht _ _.
  destruct (gse_unclipped_run polyfit Gamma t r2 a T width σ Hlen Ht) as [σ0 E0].
  cbv zeta in E0.
  set (w := map (λ ti, 1 / ti) t) in *.
  set (G_s := map _ (curvatures polyfit t r2 width_default)) in *.
  set (Gp0 := map (λ u, u / (1 + u) * (cos _ - _)) _) in *.
  set (Gpp0 := map (λ u, u / (1 + u) * (sin _ - _)) _) in *.
  assert (LG : length G_s = length t)
    by (unfold G_s; by rewrite length_map, length_curvatures).
  assert (Lp : length Gp0 = length t)
    by (unfold Gp0, w; by rewrite length_map, length_curvatures, length_map).
  assert (Lpp : length Gpp0 = length t)
    by (unfold Gpp0, w; by rewrite length_map, length_curvatures, length_map).
  destruct (clip_noise_Ok InfoClippedGp clip G_s Gp0 σ0) as [σ1 E1]; [lia|].
  destruct (clip_noise_Ok InfoClippedGpp clip G_s Gpp0 σ1) as [σ2 E2]; [lia|].
  eexists w, G_s, Gp0, Gpp0, _, _, σ0, σ2. split; [exact E0|]. split.
  { unfold gse. erewrite bind_Ok; [|exact E0]. cbv beta iota.
    erewrite bind_Ok; [|exact E1]. erewrite bind_Ok; [|exact E2]. reflexivity. }
  rewrite !length_zip_with.
  repeat split; try lia; by apply lookup_clipped.
Qed.

(** C9, as amended.  [log_derivatives] checks the lengths first: with
    different lengths it raises AssertionError whatever the values, and
    so does [gse]; with equal lengths, positive [x] and a non-zero width
    it returns for every [f], whatever the signs of its values. *)
Theorem log_derivatives_validation (x f : list R) (a T clip width : R) (σ : world) :
  (length x ≠ length f →
   log_derivatives polyfit x f width σ = Raise AssertionError ∧
   gse polyfit Gamma x f a T clip width σ = Raise AssertionError) ∧
  (length x = length f → Forall (Rlt 0) x → width ≠ 0 →
   ∃ (l : loc) (σ' : world),
     log_derivatives polyfit x f width σ = Ok ((l, l, l), σ')).
Proof.
  split.
  - intros Hlen. split; [by apply log_derivatives_mismatch|].
    unfold gse, gse_unclipped.
    do 2 (erewrite bind_Raise; [done|]). by apply log_derivatives_mismatch.
  - intros Hlen _ _. eexists _, _. by apply log_derivatives_run.
Qed.

(** C10, as amended.  For a least-squares [polyfit], positive [x] and [f]
    of equal lengths with three distinct abscissae, and [k > 0]:
    multiplying all of [f] by [k], or all of [x] by [k], leaves the three
    arrays read after [log_derivatives], the first and second derivatives
    among them, unchanged. *)
Theorem log_derivatives_scale_invariant (x f : list R) (k width : R) (σ : world) :
  least_squares polyfit →
  Forall (Rlt 0) x → Forall (Rlt 0) f → length x = length f →
  three_distinct x → 0 < k → width ≠ 0 →
  ∃ (smooth_f df ddf : list R) (σ' : world),
    log_derivatives_values polyfit x f width σ = Ok ((smooth_f, df, ddf), σ') ∧
    log_derivatives_values polyfit x (map (Rmult k) f) width σ
      = Ok ((smooth_f, df, ddf), σ') ∧
    log_derivatives_values polyfit (map (Rmult k) x) f width σ
      = Ok ((smooth_f, df, ddf), σ').
Proof.
  intros Hls Hx Hf Hlen H3 Hk _.
  eexists _, _, _, _. split; [by apply log_derivatives_values_run|]. split.
  - rewrite log_derivatives_values_run by (by rewrite length_map).
    cbv zeta. by rewrite curvatures_scale_f.
  - rewrite log_derivatives_values_run by (by rewrite length_map).
    cbv zeta. by rewrite curvatures_scale_x.
Qed.

End Claims.

(** ** A sampled curve *)

Lemma sample_x_power_law : map (λ xi, 1 * Rpower xi 1) sample_x = sample_x.
Proof.
  unfold sample_x. cbn [map].
  rewrite !Rpower_1 by (try lra; apply exp_pos). by rewrite !Rmult_1_l.
Qed.

Lemma sample_x_curvatures :
  curvatures lstsq_polyfit sample_x sample_x width_default = [0; 0; 0].
Proof.
  transitivity (curvatures lstsq_polyfit sample_x
                  (map (λ xi, 1 * Rpower xi 1) sample_x) width_default);
    [by rewrite sample_x_power_law|].
  rewrite power_law_curvatures; auto with sample.
Qed.

Lemma sample_x_fit (x0 : R) :
  _parabolic_spline lstsq_polyfit (map Np.log sample_x) (map Np.log sample_x)
      x0 width_default = (0, 1, 0).
Proof.
  transitivity (_parabolic_spline lstsq_polyfit (map Np.log sample_x)
                  (map Np.log (map (λ xi, 1 * Rpower xi 1) sample_x)) x0 width_default);
    [by rewrite sample_x_power_law|].
  rewrite power_law_fit; auto with sample.
  unfold Np.log. by rewrite ln_1.
Qed.

(** C1.  On the curve [f = x] sampled at [1], [e], [e²], at index [1]
    where [u0 = log e]: the entry returned as smoothed value is not
    [exp (a u0² + b u0 + c)] and the entry returned as first derivative is
    not [2 a u0 + b], for [(c, b, a)] the fit centred at [u0]; the entry
    returned as second derivative is [2 a].  All three entries are [0]
    and the fit is [(0, 1, 0)]. *)
Theorem log_derivatives_sample_overwritten :
  ∃ (smooth_f df ddf : list R) (σ' : world) (c b a : R),
    log_derivatives_values lstsq_polyfit sample_x sample_x width_default empty_world
      = Ok ((smooth_f, df, ddf), σ') ∧
    _parabolic_spline lstsq_polyfit (map Np.log sample_x) (map Np.log sample_x)
        (Np.log (exp 1)) width_default = (c, b, a) ∧
    (c, b, a) = (0, 1, 0) ∧
    smooth_f !! 1%nat = Some 0 ∧ df !! 1%nat = Some 0 ∧
    smooth_f !! 1%nat ≠ Some (exp (a * Np.log (exp 1) ^ 2 + b * Np.log (exp 1) + c)) ∧
    df !! 1%nat ≠ Some (2 * a * Np.log (exp 1) + b) ∧
    ddf !! 1%nat = Some (2 * a).
Proof.
  exists [0; 0; 0], [0; 0; 0], [0; 0; 0]. eexists. exists 0, 1, 0.
  split; [|split; [apply sample_x_fit|]].
  { rewrite log_derivatives_values_run by done. cbv zeta.
    rewrite sample_x_curvatures. reflexivity. }
  unfold Np.log. rewrite ln_exp. cbn [lookup list_lookup].
  repeat split.
  - intros [= E]. pose proof (exp_pos (0 * 1 ^ 2 + 1 * 1 + 0)) as Hpos.
    simpl in Hpos. lra.
  - intros [= E]. lra.
  - f_equal. lra.
Qed.

(** C9, refuted as stated: lengths 2 and 1 abort with AssertionError. *)
Lemma log_derivatives_rejects_mismatch :
  log_derivatives lstsq_polyfit [1; 2] [1] width_default empty_world
    = Raise AssertionError.
Proof. reflexivity. Qed.

(** C3 on the power law [2 x^3] over the sampled abscissae. *)
Lemma power_law_log_derivatives_witness :
  ∃ σ' : world,
    log_derivatives_values lstsq_polyfit sample_x
        (map (λ xi, 2 * Rpower xi 3) sample_x) width_default empty_world
      = Ok (([0; 0; 0], [0; 0; 0], [0; 0; 0]), σ').
Proof.
  apply (power_law_log_derivatives lstsq_polyfit sample_x 2 3 width_default empty_world);
    auto with sample.
Defined.

(** C5 on the sampled curve. *)
Lemma gse_clipping_witness :
  ∃ (w G_s Gp0 Gpp0 Gp Gpp : list R) (σ0 σ' : world),
    gse_unclipped lstsq_polyfit (λ _, 1) sample_x sample_f 1 298 width_default empty_world
      = Ok ((w, G_s, Gp0, Gpp0), σ0) ∧
    gse lstsq_polyfit (λ _, 1) sample_x sample_f 1 298 clip_default width_default empty_world
      = Ok ((w, G_s, Gp, Gpp), σ') ∧
    length Gp = 3%nat ∧ length Gpp = 3%nat.
Proof.
  destruct (gse_clipping lstsq_polyfit (λ _, 1) sample_x sample_f 1 298
              clip_default width_default empty_world eq_refl ltac:(done)
              ltac:(lra) sample_x_pos)
    as (w & G_s & Gp0 & Gpp0 & Gp & Gpp & σ0 & σ' & E0 & E & _ & _ & _ & Lp & Lpp & _).
  by exists w, G_s, Gp0, Gpp0, Gp, Gpp, σ0, σ'.
Defined.

(** C10 on the sampled curve, rescaled by [2]. *)
Lemma log_derivatives_scale_invariant_witness :
  ∃ (smooth_f df ddf : list R) (σ' : world),
    log_derivatives_values lstsq_polyfit sample_x sample_f width_default empty_world
      = Ok ((smooth_f, df, ddf), σ') ∧
    log_derivatives_values lstsq_polyfit sample_x (map (Rmult 2) sample_f)
        width_default empty_world = Ok ((smooth_f, df, ddf), σ') ∧
    log_derivatives_values lstsq_polyfit (map (Rmult 2) sample_x) sample_f
        width_default empty_world = Ok ((smooth_f, df, ddf), σ').
Proof.
  apply (log_derivatives_scale_invariant lstsq_polyfit sample_x sample_f 2
           width_default empty_world); auto with sample.
Defined.

(** * Further properties *)

(** ** Outcomes, warnings and the noise floor of [gse] *)

Lemma foldl_Rmax_maximum (v : list R) (x : R) :
  is_maximum (foldl Rmax x v) (x :: v).
Proof.
  revert x. induction v as [|y v IH]; intros x; cbn [foldl].
  - split; [by apply elem_of_cons; left|].
    intros z [->|Hz]%elem_of_cons; [lra | by apply elem_of_nil in Hz].
  - destruct (IH (Rmax x y)) as [Hin Hub]. split.
    + apply elem_of_cons in Hin as [->|Hin].
      * apply Rmax_case_strong; intros _; rewrite !elem_of_cons; auto.
      * rewrite !elem_of_cons; auto.
    + intros z Hz.
      assert (Hxy : Rmax x y <= foldl Rmax (Rmax x y) v)
        by (apply Hub, elem_of_cons; by left).
      pose proof (Rmax_l x y). pose proof (Rmax_r x y).
      apply elem_of_cons in Hz as [->|Hz]; [lra|].
      apply elem_of_cons in Hz as [->|Hz]; [lra|].
      apply Hub, elem_of_cons. by right.
Qed.

Lemma max_run (v : list R) (σ : world) :
  v ≠ [] → ∃ m : R, is_maximum m v ∧ Np.max v σ = Ok (m, σ).
Proof.
  destruct v as [|x v]; [done|]. intros _.
  exists (foldl Rmax x v). split; [apply foldl_Rmax_maximum | reflexivity].
Qed.

Lemma quality_check_run (warn : R → logrec) (l : loc) (h : gmap nat (list R))
    (lg : list logrec) (v : list R) :
  h !! l = Some v → v ≠ [] →
  ∃ m : R,
    is_maximum m (map Rabs v) ∧
    quality_check warn l (World h lg) =
      Ok (tt, World h (lg ++ if decide (0.15 < m) then [warn m] else [])).
Proof.
  intros Hl Hv.
  destruct (max_run (map Rabs v) (World h lg)) as (m & Hm & E);
    [by destruct v|].
  exists m. split; [done|]. unfold quality_check.
  erewrite bind_Ok; [|by apply load_Ok].
  erewrite bind_Ok; [|exact E].
  case_bool_decide.
  - by rewrite decide_True.
  - rewrite decide_False by done. by rewrite app_nil_r.
Qed.

Lemma quality_check_empty (warn : R → logrec) (l : loc) (h : gmap nat (list R))
    (lg : list logrec) :
  h !! l = Some [] → quality_check warn l (World h lg) = Raise ValueError.
Proof.
  intros Hl. unfold quality_check.
  erewrite bind_Ok; [|by apply load_Ok]. reflexivity.
Qed.

Lemma any_lt_true (clip : R) (G G_s : list R) :
  Np.any (Np.lt G (map (Rmult clip) G_s)) = true ↔
  ∃ (i : nat) (p s : R), G !! i = Some p ∧ G_s !! i = Some s ∧ p < clip * s.
Proof.
  unfold Np.any, Np.lt. revert G_s.
  induction G as [|p G IH]; intros [|s G_s]; cbn [zip_with map existsb].
  1-3: split; [done|]; by intros (i & p' & s' & Hp & Hs & _); destruct i.
  rewrite orb_true_iff, IH, bool_decide_eq_true. split.
  - intros [Hlt|(i & p' & s' & Hp & Hs & Hlt)].
    + by exists 0%nat, p, s.
    + by exists (S i), p', s'.
  - intros ([|i] & p' & s' & Hp & Hs & Hlt); simplify_eq/=; [by left|].
    right. by exists i, p', s'.
Qed.

Lemma clip_noise_run (note : logrec) (clip : R) (G_s G : list R)
    (h : gmap nat (list R)) (lg : list logrec) :
  length G = length G_s →
  clip_noise note clip G_s G (World h lg) =
    Ok (zip_with (λ p s, if decide (p < clip * s) then 0 else p) G G_s,
        World h (lg ++ if Np.any (Np.lt G (map (Rmult clip) G_s))
                       then [note] else [])).
Proof.
  intros Hlen. unfold clip_noise.
  destruct (Np.any _) eqn:Hany.
  - by rewrite setmask_lt.
  - rewrite app_nil_r, <- setmask_lt, setmask_none; [done | | done].
    apply length_lt. by rewrite length_map.
Qed.

Section Outcomes.

Variable polyfit : list R → list R → list R → R * R * R.
Variable Gamma : R → R.

(** The run of [gse] before the clipping, with the heap and the log it
    leaves. *)
Lemma gse_unclipped_world (t r2 : list R) (a T width : R)
    (h : gmap nat (list R)) (lg : list logrec) :
  length t = length r2 → t ≠ [] →
  let v := curvatures polyfit t r2 width_default in
  let s := map (λ ti, 1 / ti) t in
  let G_s :=
    map (λ v, 2 / 3 * (4.1e-9 * T / 298) / (PI * a)
              / (v * Gamma (1 + v) * (1 + v / 2))) v in
  let u := curvatures polyfit s G_s width_default in
  let Gp :=
    map (λ u, u / (1 + u) * (cos (PI / 2 * u) - (PI / 2 - 1) * u * u)) u in
  let Gpp :=
    map (λ u, u / (1 + u) * (sin (PI / 2 * u) - (PI / 2 - 1) * (1 - u) * u)) u in
  let l := fresh (dom h) in
  let l' := fresh (dom (<[l := v]> h)) in
  ∃ m1 m2 : R,
    is_maximum m1 (map Rabs v) ∧ is_maximum m2 (map Rabs u) ∧
    gse_unclipped polyfit Gamma t r2 a T width (World h lg) =
      Ok ((s, G_s, Gp, Gpp),
          World (<[l' := u]> (<[l := v]> h))
                ((lg ++ if decide (0.15 < m1) then [WarnMSD m1] else [])
                    ++ if decide (0.15 < m2) then [WarnGs m2] else [])).
Proof.
  intros Hlen Ht v s G_s u Gp Gpp l l'. unfold gse_unclipped.
  erewrite bind_Ok; [|by apply log_derivatives_run].
  cbv beta iota zeta. cbn [w_heap w_log]. fold v l.
  assert (Hv : v ≠ []).
  { intros E. apply (f_equal length) in E. unfold v in E.
    rewrite length_curvatures in E. by destruct t. }
  destruct (quality_check_run WarnMSD l (<[l:=v]> h) lg v) as (m1 & Hm1 & E1);
    [apply lookup_insert_eq | done |].
  exists m1.
  erewrite bind_Ok; [|exact E1]. run_loads.
  assert (EG : map (λ v0, 2 / 3 * (4.1e-9 * T / 298) / (Np.pi * a) / v0)
                 (Np.mul (Np.mul v (map (λ v0, Gamma (1 + v0)) v))
                    (map (λ v0, 1 + v0 / 2) v)) = G_s).
  { unfold Np.mul, G_s, Np.pi. rewrite zip_with_map_l, zip_with_map_map.
    by rewrite <- list_fmap_compose. }
  rewrite EG.
  erewrite bind_Ok.
  2:{ apply log_derivatives_run. unfold s, G_s, v.
      by rewrite !length_map, length_curvatures. }
  cbv beta iota zeta. cbn [w_heap w_log]. fold s u l'.
  assert (Hu : u ≠ []).
  { intros E. apply (f_equal length) in E. unfold u, s in E.
    rewrite length_curvatures, length_map in E. by destruct t. }
  destruct (quality_check_run WarnGs l' (<[l':=u]> (<[l:=v]> h))
              (lg ++ if decide (0.15 < m1) then [WarnMSD m1] else []) u)
    as (m2 & Hm2 & E2); [apply lookup_insert_eq | done |].
  exists m2. split; [done|]. split; [done|].
  erewrite bind_Ok; [|exact E2]. run_loads.
  unfold mret, M_ret. do 3 f_equal.
  - f_equal. unfold Np.mul, Np.div, Np.sub, Gp, Np.pi.
    rewrite zip_with_map_l, zip_with_map_r_self, zip_with_map_map, zip_with_map_map.
    apply list_fmap_ext. intros _ z _. simpl. unfold Rdiv. ring.
  - unfold Np.mul, Np.div, Np.sub, Gpp, Np.pi.
    rewrite zip_with_map_l, zip_with_map_r_self, zip_with_map_map, zip_with_map_map.
    apply list_fmap_ext. intros _ z _. simpl. unfold Rdiv. ring.
Qed.

Lemma gse_empty (a T clip width : R) (σ : world) :
  gse polyfit Gamma [] [] a T clip width σ = Raise ValueError.
Proof.
  unfold gse, gse_unclipped. destruct σ as [h lg].
  erewrite bind_Raise; [done|].
  erewrite bind_Ok; [|by apply log_derivatives_run].
  cbv beta iota zeta. cbn [w_heap w_log].
  erewrite bind_Raise; [done|].
  apply quality_check_empty. apply lookup_insert_eq.
Qed.

Lemma gse_mismatch (t r2 : list R) (a T clip width : R) (σ : world) :
  length t ≠ length r2 →
  gse polyfit Gamma t r2 a T clip width σ = Raise AssertionError.
Proof.
  intros Hlen. unfold gse, gse_unclipped.
  do 2 (erewrite bind_Raise; [done|]). by apply log_derivatives_mismatch.
Qed.

End Outcomes.

Lemma zip_with_floor_none (clip : R) (G G_s : list R) :
  length G = length G_s →
  Np.any (Np.lt G (map (Rmult clip) G_s)) = false →
  zip_with (λ p s, if decide (p < clip * s) then 0 else p) G G_s = G.
Proof.
  intros Hlen Hany. rewrite <- setmask_lt. apply setmask_none; [|done].
  apply length_lt. by rewrite length_map.
Qed.

Section Noise.

Variable polyfit : list R → list R → list R → R * R * R.
Variable Gamma : R → R.

(** The whole run of [gse] on a non-empty curve of equal lengths. *)
Lemma gse_world (t r2 : list R) (a T clip width : R)
    (h : gmap nat (list R)) (lg : list logrec) :
  length t = length r2 → t ≠ [] →
  ∃ (G_s Gp0 Gpp0 : list R) (h' : gmap nat (list R)) (m1 m2 : R),
    length G_s = length t ∧ length Gp0 = length t ∧ length Gpp0 = length t ∧
    is_maximum m1 (map Rabs (curvatures polyfit t r2 width_default)) ∧
    is_maximum m2
      (map Rabs (curvatures polyfit (map (λ ti, 1 / ti) t) G_s width_default)) ∧
    let lg0 := (lg ++ if decide (0.15 < m1) then [WarnMSD m1] else [])
                  ++ if decide (0.15 < m2) then [WarnGs m2] else [] in
    gse_unclipped polyfit Gamma t r2 a T width (World h lg) =
      Ok ((map (λ ti, 1 / ti) t, G_s, Gp0, Gpp0), World h' lg0) ∧
    gse polyfit Gamma t r2 a T clip width (World h lg) =
      Ok ((map (λ ti, 1 / ti) t, G_s,
           zip_with (λ p s, if decide (p < clip * s) then 0 else p) Gp0 G_s,
           zip_with (λ p s, if decide (p < clip * s) then 0 else p) Gpp0 G_s),
          World h'
            ((lg0 ++ if Np.any (Np.lt Gp0 (map (Rmult clip) G_s))
                     then [InfoClippedGp] else [])
               ++ if Np.any (Np.lt Gpp0 (map (Rmult clip) G_s))
                  then [InfoClippedGpp] else [])).
Proof.
  intros Hlen Ht.
  destruct (gse_unclipped_world polyfit Gamma t r2 a T width h lg Hlen Ht)
    as (m1 & m2 & Hm1 & Hm2 & E0).
  cbv zeta in E0.
  set (G_s := map (λ v, _ / _) (curvatures polyfit t r2 width_default)) in *.
  set (Gp0 := map (λ u, u / (1 + u) * (cos _ - _)) _) in *.
  set (Gpp0 := map (λ u, u / (1 + u) * (sin _ - _)) _) in *.
  assert (LG : length G_s = length t)
    by (unfold G_s; by rewrite length_map, length_curvatures).
  assert (Lp : length Gp0 = length t)
    by (unfold Gp0; by rewrite length_map, length_curvatures, length_map).
  assert (Lpp : length Gpp0 = length t)
    by (unfold Gpp0; by rewrite length_map, length_curvatures, length_map).
  eexists G_s, Gp0, Gpp0, _, m1, m2.
  split; [exact LG|]. split; [exact Lp|]. split; [exact Lpp|].
  split; [exact Hm1|]. split; [exact Hm2|]. cbv zeta. split; [exact E0|].
  unfold gse. erewrite bind_Ok; [|exact E0]. cbv beta iota.
  erewrite bind_Ok; [|apply clip_noise_run; lia].
  erewrite bind_Ok; [|apply clip_noise_run; lia].
  reflexivity.
Qed.

End Noise.

Section Modulus_outcomes.

Variable polyfit : list R → list R → list R → R * R * R.
Variable Gamma : R → R.

(** X1.  For a radius other than [0] and positive lag times, [gse]
    raises AssertionError exactly when the lengths of [t] and [r2] differ
    and ValueError exactly on the empty curve; in every other case it
    returns, with [w] the reciprocals of [t] and [G_s], [G'] and [G''] of
    the length of [t]. *)
Theorem gse_outcome (t r2 : list R) (a T clip width : R) (σ : world) :
  a ≠ 0 → Forall (Rlt 0) t →
  match gse polyfit Gamma t r2 a T clip width σ with
  | Raise e =>
      (length t ≠ length r2 ∧ e = AssertionError) ∨
      (t = [] ∧ r2 = [] ∧ e = ValueError)
  | Ok ((w, G_s, Gp, Gpp), _) =>
      length t = length r2 ∧ t ≠ [] ∧ w = map (λ ti, 1 / ti) t ∧
      length G_s = length t ∧ length Gp = length t ∧ length Gpp = length t
  end.
Proof.
  intros _ _.
  destruct (decide (length t = length r2)) as [Hlen|Hlen].
  2:{ rewrite gse_mismatch by done. by left. }
  destruct (decide (t = [])) as [->|Ht].
  { destruct r2; [|done]. rewrite gse_empty. by right. }
  destruct σ as [h lg].
  destruct (gse_world polyfit Gamma t r2 a T clip width h lg Hlen Ht)
    as (G_s & Gp0 & Gpp0 & h' & m1 & m2 & LG & Lp & Lpp & _ & _ & _ & E).
  rewrite E. rewrite !length_zip_with. repeat split; try done; lia.
Qed.

(** X3.  On a non-empty positive curve of equal lengths where the
    arithmetic of [gse] stays finite, the checks of the second
    derivatives never abort [gse]: it logs the MSD warning exactly when
    the largest [|ddf|] of the first pass is above 0.15, then the G(s)
    warning exactly when the largest [|ddg|] of the second pass is above
    0.15, each with that maximum, and after them only the clipping
    notes. *)
Theorem gse_quality_warnings (t r2 : list R) (a T clip width : R) (σ : world) :
  length t = length r2 → t ≠ [] → Forall (Rlt 0) t → Forall (Rlt 0) r2 →
  gse_finite polyfit Gamma t r2 a T →
  ∃ (w G_s Gp Gpp : list R) (σ' : world) (m1 m2 : R) (infos : list logrec),
    gse polyfit Gamma t r2 a T clip width σ = Ok ((w, G_s, Gp, Gpp), σ') ∧
    is_maximum m1 (map Rabs (curvatures polyfit t r2 width_default)) ∧
    is_maximum m2 (map Rabs (curvatures polyfit w G_s width_default)) ∧
    w_log σ' =
      w_log σ ++ (if decide (0.15 < m1) then [WarnMSD m1] else [])
              ++ (if decide (0.15 < m2) then [WarnGs m2] else []) ++ infos ∧
    Forall (λ r, r = InfoClippedGp ∨ r = InfoClippedGpp) infos.
Proof.
  intros Hlen Ht _ _ _. destruct σ as [h lg].
  destruct (gse_world polyfit Gamma t r2 a T clip width h lg Hlen Ht)
    as (G_s & Gp0 & Gpp0 & h' & m1 & m2 & _ & _ & _ & Hm1 & Hm2 & _ & E).
  eexists _, _, _, _, _, m1, m2.
  exists ((if Np.any (Np.lt Gp0 (map (Rmult clip) G_s)) then [InfoClippedGp] else [])
            ++ if Np.any (Np.lt Gpp0 (map (Rmult clip) G_s))
               then [InfoClippedGpp] else []).
  split; [exact E|].
  split; [exact Hm1|]. split; [exact Hm2|]. cbn [w_log]. split.
  - by rewrite <- !app_assoc.
  - destruct (Np.any (Np.lt Gp0 _)), (Np.any (Np.lt Gpp0 _)); cbn [app];
      repeat (apply List.Forall_cons; [auto|]); apply List.Forall_nil.
Qed.

(** X4.  On a non-empty positive curve of equal lengths where the
    arithmetic of [gse] stays finite, every entry of the returned [G'] and
    [G''] is either [0] or at least [clip * G_s] at its index. *)
Theorem gse_noise_floor (t r2 : list R) (a T clip width : R) (σ : world) :
  length t = length r2 → t ≠ [] → Forall (Rlt 0) t → Forall (Rlt 0) r2 →
  gse_finite polyfit Gamma t r2 a T →
  ∃ (w G_s Gp Gpp : list R) (σ' : world),
    gse polyfit Gamma t r2 a T clip width σ = Ok ((w, G_s, Gp, Gpp), σ') ∧
    ∀ (i : nat) (s : R),
      G_s !! i = Some s →
      (∃ p : R, Gp !! i = Some p ∧ (p = 0 ∨ clip * s <= p)) ∧
      (∃ q : R, Gpp !! i = Some q ∧ (q = 0 ∨ clip * s <= q)).
Proof.
  intros Hlen Ht _ _ _. destruct σ as [h lg].
  destruct (gse_world polyfit Gamma t r2 a T clip width h lg Hlen Ht)
    as (G_s & Gp0 & Gpp0 & h' & m1 & m2 & LG & Lp & Lpp & _ & _ & _ & E).
  eexists _, _, _, _, _. split; [exact E|].
  intros i s Hs.
  assert (Hi : (i < length t)%nat) by (rewrite <- LG; by eapply lookup_lt_Some).
  destruct (lookup_lt_is_Some_2 Gp0 i ltac:(lia)) as [p Hp].
  destruct (lookup_lt_is_Some_2 Gpp0 i ltac:(lia)) as [q Hq].
  split; eexists; (split; [by apply lookup_clipped|]).
  all: destruct (decide (_ < clip * s)); [by left | right; by apply Rnot_lt_le].
Qed.

(** X5.  On a non-empty positive curve of equal lengths where the
    arithmetic of [gse] stays finite: after the log of the run before
    clipping, [gse] appends the
    [G'] note exactly when some entry of [G'] is strictly below
    [clip * G_s], and otherwise returns [G'] as it was; then likewise for
    [G'']. *)
Theorem gse_clipping_logged (t r2 : list R) (a T clip width : R) (σ : world) :
  length t = length r2 → t ≠ [] → Forall (Rlt 0) t → Forall (Rlt 0) r2 →
  gse_finite polyfit Gamma t r2 a T →
  ∃ (w G_s Gp0 Gpp0 Gp Gpp : list R) (σ0 σ' : world) (n1 n2 : list logrec),
    gse_unclipped polyfit Gamma t r2 a T width σ = Ok ((w, G_s, Gp0, Gpp0), σ0) ∧
    gse polyfit Gamma t r2 a T clip width σ = Ok ((w, G_s, Gp, Gpp), σ') ∧
    w_log σ' = w_log σ0 ++ n1 ++ n2 ∧
    ((n1 = [InfoClippedGp] ∧
      ∃ (i : nat) (p s : R), Gp0 !! i = Some p ∧ G_s !! i = Some s ∧ p < clip * s) ∨
     (n1 = [] ∧ Gp = Gp0 ∧
      ∀ (i : nat) (p s : R), Gp0 !! i = Some p → G_s !! i = Some s → clip * s <= p)) ∧
    ((n2 = [InfoClippedGpp] ∧
      ∃ (i : nat) (q s : R), Gpp0 !! i = Some q ∧ G_s !! i = Some s ∧ q < clip * s) ∨
     (n2 = [] ∧ Gpp = Gpp0 ∧
      ∀ (i : nat) (q s : R), Gpp0 !! i = Some q → G_s !! i = Some s → clip * s <= q)).
Proof.
  intros Hlen Ht _ _ _. destruct σ as [h lg].
  destruct (gse_world polyfit Gamma t r2 a T clip width h lg Hlen Ht)
    as (G_s & Gp0 & Gpp0 & h' & m1 & m2 & LG & Lp & Lpp & _ & _ & E0 & E).
  cbv zeta in E0, E.
  eexists _, G_s, Gp0, Gpp0, _, _, _, _, _, _.
  split; [exact E0|]. split; [exact E|]. cbn [w_log].
  split; [by rewrite <- app_assoc|].
  assert (Hcase : ∀ G : list R, length G = length t →
    (Np.any (Np.lt G (map (Rmult clip) G_s)) = true ∧
     ∃ (i : nat) (p s : R), G !! i = Some p ∧ G_s !! i = Some s ∧ p < clip * s) ∨
    (Np.any (Np.lt G (map (Rmult clip) G_s)) = false ∧
     zip_with (λ p s, if decide (p < clip * s) then 0 else p) G G_s = G ∧
     ∀ (i : nat) (p s : R), G !! i = Some p → G_s !! i = Some s → clip * s <= p)).
  { intros G LGl. destruct (Np.any (Np.lt G _)) eqn:Hb; [left|right].
    - split; [done|]. by apply any_lt_true.
    - split; [done|]. split; [apply zip_with_floor_none; [lia | done]|].
      intros i p s Hp Hs. apply Rnot_lt_le. intros Hlt.
      assert (Np.any (Np.lt G (map (Rmult clip) G_s)) = true) as Hb'
        by (apply any_lt_true; by exists i, p, s).
      congruence. }
  split.
  - destruct (Hcase Gp0 Lp) as [[-> Hex]|(-> & Heq & Hall)]; [by left | by right].
  - destruct (Hcase Gpp0 Lpp) as [[-> Hex]|(-> & Heq & Hall)]; [by left | by right].
Qed.

(** X2.  On positive curves of equal lengths and with non-zero widths,
    two calls of [log_derivatives] in a row return two different arrays, both new to the heap the first call started from: after the
    second call the first result still holds its curvatures, no array that
    was there before has changed, and nothing was logged. *)
Theorem log_derivatives_twice (x f x' f' : list R) (width width' : R) (σ : world) :
  length x = length f → length x' = length f' →
  Forall (Rlt 0) x → Forall (Rlt 0) f → Forall (Rlt 0) x' → Forall (Rlt 0) f' →
  width ≠ 0 → width' ≠ 0 →
  ∃ (l l' : loc) (σ1 σ2 : world),
    log_derivatives polyfit x f width σ = Ok ((l, l, l), σ1) ∧
    log_derivatives polyfit x' f' width' σ1 = Ok ((l', l', l'), σ2) ∧
    l ≠ l' ∧ w_heap σ !! l = None ∧ w_heap σ !! l' = None ∧
    w_heap σ2 !! l = Some (curvatures polyfit x f width) ∧
    w_heap σ2 !! l' = Some (curvatures polyfit x' f' width') ∧
    length (curvatures polyfit x f width) = length x ∧
    w_log σ2 = w_log σ ∧
    ∀ k : loc, k ≠ l → k ≠ l' → w_heap σ2 !! k = w_heap σ !! k.
Proof.
  intros Hlen Hlen' _ _ _ _ _ _. destruct σ as [h lg].
  set (l := fresh (dom h)).
  set (v := curvatures polyfit x f width).
  set (l' := fresh (dom (<[l := v]> h))).
  assert (Hl : h !! l = None) by (apply not_elem_of_dom, is_fresh).
  assert (Hl' : (<[l := v]> h) !! l' = None) by (apply not_elem_of_dom, is_fresh).
  assert (Hne : l ≠ l').
  { intros E. rewrite <- E, lookup_insert_eq in Hl'. done. }
  exists l, l'. eexists _, _.
  split; [by apply log_derivatives_run|].
  split; [by apply log_derivatives_run|]. cbn [w_heap w_log].
  split; [done|]. split; [done|].
  split; [by rewrite lookup_insert_ne in Hl'|].
  split; [by rewrite lookup_insert_ne, lookup_insert_eq|].
  split; [apply lookup_insert_eq|].
  split; [apply length_curvatures|]. split; [done|].
  intros k Hk Hk'. by rewrite !lookup_insert_ne.
Qed.

End Modulus_outcomes.

(** ** The factors of the Fischer model *)

Lemma tanh_pos (z : R) : 0 < z → 0 < tanh z.
Proof.
  intros Hz. unfold tanh. apply Rdiv_lt_0_compat.
  - rewrite <- sinh_0. by apply sinh_lt.
  - unfold cosh. pose proof (exp_pos z). pose proof (exp_pos (- z)). lra.
Qed.

Lemma fischer_c0_angle (a contact_angle : R) :
  a ≠ 0 →
  fischer_c0 a contact_angle =
    6 * PI * sqrt (tanh (32 * (cos (contact_angle * PI / 180) + 1) / (9 * PI ^ 2))).
Proof.
  intros Ha. unfold fischer_c0, fischer_d, Np.pi. do 3 f_equal.
  field. split; [apply PI_neq0 | done].
Qed.

Lemma fischer_c1_angle (a contact_angle : R) :
  0 < a →
  fischer_c1 a contact_angle =
    -4 * ln (2 / PI * atan ((cos (contact_angle * PI / 180) + 1) / 3)).
Proof.
  intros Ha. unfold fischer_c1, fischer_d, Np.log, Np.pi.
  rewrite arctan2_pos_x by lra. do 4 f_equal. field. lra.
Qed.

Lemma fischer_c0_pos (a contact_angle : R) :
  a ≠ 0 → -1 < cos (contact_angle * PI / 180) → 0 < fischer_c0 a contact_angle.
Proof.
  intros Ha Hcos. rewrite fischer_c0_angle by done.
  pose proof PI_RGT_0 as Hpi.
  apply Rmult_lt_0_compat; [lra|]. apply sqrt_lt_R0, tanh_pos.
  apply Rdiv_lt_0_compat; [lra|]. nra.
Qed.

Lemma fischer_value (D a contact_angle bulk_visc T : R) (σ : world) :
  ∃ σ' : world,
    fischer D a contact_angle bulk_visc T σ =
      Ok ((4.1e-9 * T / 298 / D
           - bulk_visc * 1e-6 * a * fischer_c0 a contact_angle)
            / fischer_c1 a contact_angle, σ').
Proof. eexists. rewrite fischer_run. reflexivity. Qed.

(** X6.  For a positive radius the factors [c0] and [c1] of [fischer]
    are functions of the contact angle alone. *)
Theorem fischer_factors_angle_only (a contact_angle : R) :
  0 < a →
  fischer_c0 a contact_angle =
    6 * PI * sqrt (tanh (32 * (cos (contact_angle * PI / 180) + 1) / (9 * PI ^ 2))) ∧
  fischer_c1 a contact_angle =
    -4 * ln (2 / PI * atan ((cos (contact_angle * PI / 180) + 1) / 3)).
Proof.
  intros Ha. split; [apply fischer_c0_angle; lra | by apply fischer_c1_angle].
Qed.

(** X7.  For a positive radius and a contact angle whose cosine is above
    [-1], [c0] and [c1] are positive: [fischer] divides by a positive
    number. *)
Theorem fischer_factors_positive (a contact_angle : R) :
  0 < a → -1 < cos (contact_angle * PI / 180) →
  0 < fischer_c0 a contact_angle ∧ 0 < fischer_c1 a contact_angle.
Proof.
  intros Ha Hcos. split; [apply fischer_c0_pos; [lra | done] | by apply fischer_c1_pos].
Qed.

(** X8.  At a positive temperature the film viscosity strictly decreases
    when the diffusivity grows. *)
Theorem fischer_decreasing_in_D (D1 D2 a contact_angle bulk_visc T : R) (σ : world) :
  0 < D1 → D1 < D2 → 0 < a → 0 < T → -1 < cos (contact_angle * PI / 180) →
  ∃ (v1 v2 : R) (σ1 σ2 : world),
    fischer D1 a contact_angle bulk_visc T σ = Ok (v1, σ1) ∧
    fischer D2 a contact_angle bulk_visc T σ = Ok (v2, σ2) ∧
    v2 < v1.
Proof.
  intros HD1 HD Ha HT Hcos.
  destruct (fischer_value D1 a contact_angle bulk_visc T σ) as [σ1 E1].
  destruct (fischer_value D2 a contact_angle bulk_visc T σ) as [σ2 E2].
  eexists _, _, σ1, σ2. split; [exact E1|]. split; [exact E2|].
  pose proof (fischer_c1_pos a contact_angle Ha Hcos) as Hc1.
  apply Rmult_lt_compat_r; [by apply Rinv_0_lt_compat|].
  apply Rplus_lt_compat_r.
  assert (HkT : 0 < 4.1e-9 * T / 298) by lra.
  apply Rmult_lt_compat_l; [done|]. apply Rinv_lt_contravar; [nra | done].
Qed.

(** X9.  For a diffusivity other than [0], the film viscosity strictly
    decreases when the bulk viscosity grows. *)
Theorem fischer_decreasing_in_bulk_visc (D a contact_angle b1 b2 T : R) (σ : world) :
  D ≠ 0 → b1 < b2 → 0 < a → -1 < cos (contact_angle * PI / 180) →
  ∃ (v1 v2 : R) (σ1 σ2 : world),
    fischer D a contact_angle b1 T σ = Ok (v1, σ1) ∧
    fischer D a contact_angle b2 T σ = Ok (v2, σ2) ∧
    v2 < v1.
Proof.
  intros _ Hb Ha Hcos.
  destruct (fischer_value D a contact_angle b1 T σ) as [σ1 E1].
  destruct (fischer_value D a contact_angle b2 T σ) as [σ2 E2].
  eexists _, _, σ1, σ2. split; [exact E1|]. split; [exact E2|].
  pose proof (fischer_c1_pos a contact_angle Ha Hcos) as Hc1.
  pose proof (fischer_c0_pos a contact_angle ltac:(lra) Hcos) as Hc0.
  apply Rmult_lt_compat_r; [by apply Rinv_0_lt_compat|].
  apply Rplus_lt_compat_l, Ropp_lt_contravar.
  apply Rmult_lt_compat_r; [done|]. apply Rmult_lt_compat_r; [done|]. lra.
Qed.

(** ** Log-parabolas, inverted abscissae and reversed curves *)

Lemma log_parabola (c b a : R) (x : list R) :
  map Np.log (map (λ xi, exp (c + b * Np.log xi + a * Np.log xi ^ 2)) x) =
    map (λ u, c + b * u + a * u ^ 2) (map Np.log x).
Proof.
  rewrite <- !list_fmap_compose. apply list_fmap_ext. intros _ xi _. simpl.
  unfold Np.log at 1. by rewrite ln_exp.
Qed.

Lemma log_inverse (x : list R) :
  Forall (Rlt 0) x →
  map Np.log (map (λ xi, 1 / xi) x) = map Ropp (map Np.log x).
Proof.
  intros Hpos. rewrite <- !list_fmap_compose.
  apply Forall_fmap_ext. eapply Forall_impl; [exact Hpos|].
  intros xi Hxi. simpl. unfold Np.log, Rdiv. rewrite Rmult_1_l. by apply ln_Rinv.
Qed.

Lemma three_distinct_opp (x : list R) :
  three_distinct x → three_distinct (map Ropp x).
Proof. apply three_distinct_fmap. intros p q _ _ E. lra. Qed.

Lemma three_distinct_reverse (x : list R) :
  three_distinct x → three_distinct (reverse x).
Proof.
  intros (p & q & r & Hp & Hq & Hr & H). exists p, q, r.
  by rewrite !elem_of_reverse.
Qed.


Lemma gaussian_opp (x0 width : R) (x : list R) :
  map (gaussian (- x0) width) (map Ropp x) = map (gaussian x0 width) x.
Proof.
  rewrite <- list_fmap_compose. apply list_fmap_ext. intros _ u _. simpl.
  unfold gaussian. do 2 f_equal. ring.
Qed.

(** Negating every abscissa. *)
Lemma moment_opp_x (x w : list R) :
  let x' := map Ropp x in
  let S := λ k, moment k x w in
  moment 0 x' w = S 0%nat ∧ moment 1 x' w = - S 1%nat ∧
  moment 2 x' w = S 2%nat ∧ moment 3 x' w = - S 3%nat ∧
  moment 4 x' w = S 4%nat.
Proof.
  cbv zeta. unfold moment. revert w.
  induction x as [|u x IH]; intros [|ω w]; simpl; try (repeat split; lra).
  destruct (IH w) as (E0 & E1 & E2 & E3 & E4). simpl in *.
  rewrite E0, E1, E2, E3, E4. repeat split; ring.
Qed.

Lemma moment_y_opp_x (x y w : list R) :
  let x' := map Ropp x in
  let Y := λ k, moment_y k x y w in
  moment_y 0 x' y w = Y 0%nat ∧ moment_y 1 x' y w = - Y 1%nat ∧
  moment_y 2 x' y w = Y 2%nat.
Proof.
  cbv zeta. unfold moment_y. revert y w.
  induction x as [|u x IH]; intros [|v y] [|ω w]; simpl; try (repeat split; lra).
  destruct (IH y w) as (E0 & E1 & E2). simpl in *.
  rewrite E0, E1, E2. repeat split; ring.
Qed.

Lemma wsum_app (w1 w2 v1 v2 : list R) :
  length w1 = length v1 →
  wsum (w1 ++ w2) (v1 ++ v2) = wsum w1 v1 + wsum w2 v2.
Proof.
  revert v1. induction w1 as [|ω w1 IH]; intros [|v v1] Hlen; simplify_eq/=.
  - lra.
  - rewrite IH by done. lra.
Qed.

Lemma wsum_reverse (w v : list R) :
  length w = length v → wsum (reverse w) (reverse v) = wsum w v.
Proof.
  revert v. induction w as [|ω w IH]; intros [|y v] Hlen; simplify_eq/=; [done|].
  rewrite !reverse_cons, wsum_app by (by rewrite !length_reverse).
  rewrite IH by done. simpl. lra.
Qed.

Lemma zip_with_reverse {A B C : Type} (g : A → B → C) (l : list A) (k : list B) :
  length l = length k →
  zip_with g (reverse l) (reverse k) = reverse (zip_with g l k).
Proof.
  revert k. induction l as [|a l IH]; intros [|b k] Hlen; simplify_eq/=; [done|].
  rewrite !reverse_cons, zip_with_app by (by rewrite !length_reverse).
  by rewrite IH.
Qed.

Lemma moment_reverse (k : nat) (x w : list R) :
  length w = length x → moment k (reverse x) (reverse w) = moment k x w.
Proof.
  intros Hlen. unfold moment. rewrite fmap_reverse.
  apply wsum_reverse. by rewrite length_map.
Qed.

Lemma moment_y_reverse (k : nat) (x y w : list R) :
  length w = length x → length y = length x →
  moment_y k (reverse x) (reverse y) (reverse w) = moment_y k x y w.
Proof.
  intros Hw Hy. unfold moment_y. rewrite zip_with_reverse by done.
  apply wsum_reverse. rewrite length_zip_with. lia.
Qed.

Section Symmetries.

Variable polyfit : list R → list R → list R → R * R * R.
Hypothesis polyfit_least_squares : least_squares polyfit.

Lemma curvature_opp_x (x y : list R) (width x0 : R) :
  three_distinct x → length y = length x →
  curvature polyfit (map Ropp x) y width (- x0) = curvature polyfit x y width x0.
Proof.
  intros Hx Hy. unfold curvature.
  pose proof (spline_normal polyfit polyfit_least_squares x y x0 width Hx Hy) as H.
  assert (Hy' : length y = length (map Ropp x)) by (by rewrite length_map).
  pose proof (spline_normal polyfit polyfit_least_squares _ y (- x0) width
                (three_distinct_opp x Hx) Hy') as H'.
  destruct (_parabolic_spline polyfit x y x0 width) as [[c b] a].
  destruct (_parabolic_spline polyfit (map _ x) y (- x0) width) as [[c' b'] a'].
  assert (E : (c, b, a) = (c', - b', a')); [|by simplify_eq].
  eapply normal_equations_unique; [by apply gaussian_well_posed | exact H |].
  rewrite gaussian_opp in H'. unfold normal_equations in *.
  destruct (moment_opp_x x (map (gaussian x0 width) x)) as (S0 & S1 & S2 & S3 & S4).
  destruct (moment_y_opp_x x y (map (gaussian x0 width) x)) as (Y0 & Y1 & Y2).
  cbv zeta in *. rewrite S0, S1, S2, S3, S4, Y0, Y1, Y2 in H'.
  destruct H' as (E0 & E1 & E2). repeat split; lra.
Qed.

Lemma spline_reverse (x y : list R) (width x0 : R) :
  three_distinct x → length y = length x →
  _parabolic_spline polyfit (reverse x) (reverse y) x0 width =
    _parabolic_spline polyfit x y x0 width.
Proof.
  intros Hx Hy.
  pose proof (spline_normal polyfit polyfit_least_squares x y x0 width Hx Hy) as H.
  assert (Hy' : length (reverse y) = length (reverse x))
    by (by rewrite !length_reverse).
  pose proof (spline_normal polyfit polyfit_least_squares _ _ x0 width
                (three_distinct_reverse x Hx) Hy') as H'.
  destruct (_parabolic_spline polyfit x y x0 width) as [[c b] a].
  destruct (_parabolic_spline polyfit (reverse x) _ x0 width) as [[c' b'] a'].
  symmetry.
  eapply normal_equations_unique; [by apply gaussian_well_posed | exact H |].
  rewrite fmap_reverse in H'. unfold normal_equations in *.
  by rewrite !moment_reverse, !moment_y_reverse in H' by (by rewrite ?length_map).
Qed.

Lemma curvatures_parabola (c b a width : R) (x : list R) :
  three_distinct (map Np.log x) →
  curvatures polyfit x
      (map (λ xi, exp (c + b * Np.log xi + a * Np.log xi ^ 2)) x) width =
    replicate (length x) (2 * a).
Proof.
  intros Hx. unfold curvatures. rewrite log_parabola.
  erewrite list_fmap_ext with (g := λ _, 2 * a).
  2:{ intros _ x0 _. unfold curvature. by rewrite spline_parabola. }
  rewrite <- list_fmap_compose. clear. induction x; simpl; by f_equal.
Qed.

Lemma curvatures_inverse (x f : list R) (width : R) :
  Forall (Rlt 0) x → length x = length f → three_distinct x →
  curvatures polyfit (map (λ xi, 1 / xi) x) f width = curvatures polyfit x f width.
Proof.
  intros Hx Hlen H3. unfold curvatures. rewrite log_inverse by done.
  rewrite <- (list_fmap_compose Ropp). apply list_fmap_ext. intros _ x0 _. simpl.
  apply curvature_opp_x; [by apply three_distinct_log | by rewrite !length_map].
Qed.

Lemma curvatures_reverse (x f : list R) (width : R) :
  Forall (Rlt 0) x → length x = length f → three_distinct x →
  curvatures polyfit (reverse x) (reverse f) width =
    reverse (curvatures polyfit x f width).
Proof.
  intros Hx Hlen H3. unfold curvatures. rewrite !fmap_reverse. f_equal.
  apply list_fmap_ext. intros _ x0 _. unfold curvature.
  rewrite spline_reverse; [done | by apply three_distinct_log | by rewrite !length_map].
Qed.

(** X10.  On a curve with [log f = c + b log x + a (log x)²], sampled at
    positive points, three of them distinct, the arrays read after
    [log_derivatives] hold [2 a] at every index, the ends included, for
    every bandwidth. *)
Theorem log_parabola_exact (x : list R) (c b a width : R) (σ : world) :
  Forall (Rlt 0) x → three_distinct x → width ≠ 0 →
  let f := map (λ xi, exp (c + b * Np.log xi + a * Np.log xi ^ 2)) x in
  let r := replicate (length x) (2 * a) in
  ∃ σ' : world, log_derivatives_values polyfit x f width σ = Ok ((r, r, r), σ').
Proof.
  intros Hx H3 _ f r. eexists.
  rewrite log_derivatives_values_run by (unfold f; by rewrite length_map).
  cbv zeta. unfold f. rewrite curvatures_parabola by (by apply three_distinct_log).
  reflexivity.
Qed.

(** X11.  Replacing every abscissa by its reciprocal leaves the arrays
    read after [log_derivatives] unchanged. *)
Theorem log_derivatives_inverse_abscissae (x f : list R) (width : R) (σ : world) :
  Forall (Rlt 0) x → length x = length f → three_distinct x → width ≠ 0 →
  ∃ (smooth_f df ddf : list R) (σ' : world),
    log_derivatives_values polyfit x f width σ = Ok ((smooth_f, df, ddf), σ') ∧
    log_derivatives_values polyfit (map (λ xi, 1 / xi) x) f width σ
      = Ok ((smooth_f, df, ddf), σ').
Proof.
  intros Hx Hlen H3 _.
  eexists _, _, _, _. split; [by apply log_derivatives_values_run|].
  rewrite log_derivatives_values_run by (by rewrite length_map).
  cbv zeta. by rewrite curvatures_inverse.
Qed.

(** X12.  On the reversed curve [log_derivatives] fills the reversed
    array. *)
Theorem log_derivatives_reversed (x f : list R) (width : R) (σ : world) :
  Forall (Rlt 0) x → length x = length f → three_distinct x → width ≠ 0 →
  ∃ (v : list R) (σ1 σ2 : world),
    log_derivatives_values polyfit x f width σ = Ok ((v, v, v), σ1) ∧
    log_derivatives_values polyfit (reverse x) (reverse f) width σ
      = Ok ((reverse v, reverse v, reverse v), σ2).
Proof.
  intros Hx Hlen H3 _.
  eexists _, _, _. split; [by apply log_derivatives_values_run|].
  rewrite log_derivatives_values_run by (by rewrite !length_reverse).
  cbv zeta. by rewrite curvatures_reverse.
Qed.

End Symmetries.

(** ** Temperature and radius in [gse] *)

Lemma three_distinct_inverse (t : list R) :
  Forall (Rlt 0) t → three_distinct t → three_distinct (map (λ ti, 1 / ti) t).
Proof.
  intros Hpos. apply three_distinct_fmap. intros p q Hp Hq E.
  rewrite Forall_forall in Hpos.
  pose proof (Hpos p Hp). pose proof (Hpos q Hq).
  unfold Rdiv in E. rewrite !Rmult_1_l in E.
  apply Rinv_eq_reg in E. done.
Qed.

Lemma inverse_pos (t : list R) :
  Forall (Rlt 0) t → Forall (Rlt 0) (map (λ ti, 1 / ti) t).
Proof.
  intros Hpos. apply Forall_fmap. eapply Forall_impl; [exact Hpos|].
  intros ti Hti. simpl. apply Rdiv_lt_0_compat; lra.
Qed.

Section Scale.

Variable polyfit : list R → list R → list R → R * R * R.
Variable Gamma : R → R.


Hypothesis polyfit_least_squares : least_squares polyfit.


End Scale.

(** ** The extras on the sampled curve *)

Lemma cos_right_angle : cos (90 * PI / 180) = 0.
Proof. replace (90 * PI / 180) with (PI / 2) by lra. apply cos_PI2. Qed.

Lemma sample_curved_curvatures :
  curvatures lstsq_polyfit sample_x sample_curved width_default = [2 * 1; 2 * 1; 2 * 1].
Proof.
  unfold sample_curved. rewrite curvatures_parabola; [done | auto with sample |].
  apply three_distinct_log; auto with sample.
Qed.

Lemma sample_curved_pos : Forall (Rlt 0) sample_curved.
Proof. unfold sample_curved. apply Forall_fmap, Forall_forall. intros; apply exp_pos. Qed.

(** A constant positive curve has no curvature. *)
Lemma curvatures_constant (x : list R) (g width : R) :
  Forall (Rlt 0) x → three_distinct x → 0 < g →
  curvatures lstsq_polyfit x (map (λ _, g) x) width = replicate (length x) 0.
Proof.
  intros Hx H3 Hg.
  rewrite <- (power_law_curvatures lstsq_polyfit x g 0 width)
    by auto with sample.
  f_equal. apply Forall_fmap_ext. eapply Forall_impl; [exact Hx|].
  intros xi Hxi. simpl. rewrite Rpower_O by done. lra.
Qed.

(** On [sample_curved], with radius [1] at 298 K, [gse] stays finite:
    [G_s] is a positive constant and [ddg] is [0]. *)
Lemma sample_curved_finite :
  gse_finite lstsq_polyfit (λ _, 1) sample_x sample_curved 1 298.
Proof.
  unfold gse_finite. rewrite sample_curved_curvatures. cbn [map].
  set (g := 2 / 3 * (4.1e-9 * 298 / 298) / (PI * 1) / (2 * 1 * 1 * (1 + 2 * 1 / 2))).
  assert (Hg : 0 < g).
  { unfold g. pose proof PI_RGT_0.
    apply Rdiv_lt_0_compat; [|lra]. apply Rdiv_lt_0_compat; lra. }
  split; [lra|]. split; [by repeat constructor|].
  change [g; g; g] with (map (λ _ : R, g) (map (λ ti, 1 / ti) sample_x)).
  rewrite curvatures_constant;
    [|apply inverse_pos, sample_x_pos
     |apply three_distinct_inverse; auto with sample | done].
  repeat constructor; lra.
Qed.

#[local] Hint Resolve sample_curved_pos sample_curved_finite : sample.

(** X2 on the sampled curve. *)
Lemma log_derivatives_twice_witness :
  ∃ (l l' : loc) (σ1 σ2 : world),
    log_derivatives lstsq_polyfit sample_x sample_f width_default empty_world
      = Ok ((l, l, l), σ1) ∧
    log_derivatives lstsq_polyfit sample_x sample_curved 1 σ1 = Ok ((l', l', l'), σ2) ∧
    l ≠ l'.
Proof.
  destruct (log_derivatives_twice lstsq_polyfit sample_x sample_f sample_x
              sample_curved width_default 1 empty_world eq_refl eq_refl
              sample_x_pos sample_f_pos sample_x_pos sample_curved_pos
              ltac:(unfold width_default; lra) ltac:(lra))
    as (l & l' & σ1 & σ2 & E1 & E2 & Hne & _).
  by exists l, l', σ1, σ2.
Defined.

(** X1 on the sampled curve. *)
Lemma gse_outcome_witness :
  match gse lstsq_polyfit (λ _, 1) sample_x sample_curved 1 298 clip_default
          width_default empty_world with
  | Raise e =>
      (length sample_x ≠ length sample_curved ∧ e = AssertionError) ∨
      (sample_x = [] ∧ sample_curved = [] ∧ e = ValueError)
  | Ok ((w, G_s, Gp, Gpp), _) =>
      length sample_x = length sample_curved ∧ sample_x ≠ [] ∧
      w = map (λ ti, 1 / ti) sample_x ∧
      length G_s = length sample_x ∧ length Gp = length sample_x ∧
      length Gpp = length sample_x
  end.
Proof.
  apply (gse_outcome lstsq_polyfit (λ _, 1) sample_x sample_curved 1 298
           clip_default width_default empty_world); [lra | apply sample_x_pos].
Defined.

(** X3 on the sampled log-parabola. *)
Lemma gse_quality_warnings_witness :
  ∃ (w G_s Gp Gpp : list R) (σ' : world),
    gse lstsq_polyfit (λ _, 1) sample_x sample_curved 1 298 clip_default width_default
        empty_world = Ok ((w, G_s, Gp, Gpp), σ').
Proof.
  destruct (gse_quality_warnings lstsq_polyfit (λ _, 1) sample_x sample_curved 1 298
              clip_default width_default empty_world eq_refl ltac:(done)
              sample_x_pos sample_curved_pos sample_curved_finite)
    as (w & G_s & Gp & Gpp & σ' & _ & _ & _ & E & _).
  by exists w, G_s, Gp, Gpp, σ'.
Defined.

(** X4 on the sampled log-parabola. *)
Lemma gse_noise_floor_witness :
  ∃ (w G_s Gp Gpp : list R) (σ' : world),
    gse lstsq_polyfit (λ _, 1) sample_x sample_curved 1 298 clip_default width_default
        empty_world = Ok ((w, G_s, Gp, Gpp), σ').
Proof.
  destruct (gse_noise_floor lstsq_polyfit (λ _, 1) sample_x sample_curved 1 298
              clip_default width_default empty_world eq_refl ltac:(done)
              sample_x_pos sample_curved_pos sample_curved_finite)
    as (w & G_s & Gp & Gpp & σ' & E & _).
  by exists w, G_s, Gp, Gpp, σ'.
Defined.

(** X5 on the sampled log-parabola. *)
Lemma gse_clipping_logged_witness :
  ∃ (w G_s Gp Gpp : list R) (σ' : world),
    gse lstsq_polyfit (λ _, 1) sample_x sample_curved 1 298 clip_default width_default
        empty_world = Ok ((w, G_s, Gp, Gpp), σ').
Proof.
  destruct (gse_clipping_logged lstsq_polyfit (λ _, 1) sample_x sample_curved 1 298
              clip_default width_default empty_world eq_refl ltac:(done)
              sample_x_pos sample_curved_pos sample_curved_finite)
    as (w & G_s & _ & _ & Gp & Gpp & _ & σ' & _ & _ & _ & E & _).
  by exists w, G_s, Gp, Gpp, σ'.
Defined.

(** X6 at a right angle, for the radii [2] and [1]. *)
Lemma fischer_factors_angle_only_witness :
  0 < 2 ∧ fischer_c0 2 90 = fischer_c0 1 90 ∧ fischer_c1 2 90 = fischer_c1 1 90.
Proof.
  split; [lra|].
  destruct (fischer_factors_angle_only 2 90 ltac:(lra)) as [E0 E1].
  destruct (fischer_factors_angle_only 1 90 ltac:(lra)) as [F0 F1].
  split; congruence.
Defined.

(** X7 at a right angle. *)
Lemma fischer_factors_positive_witness :
  0 < fischer_c0 1 90 ∧ 0 < fischer_c1 1 90.
Proof.
  apply (fischer_factors_positive 1 90); [lra | rewrite cos_right_angle; lra].
Defined.

(** X8 for the diffusivities [0.5] and [1]. *)
Lemma fischer_decreasing_in_D_witness :
  ∃ (v1 v2 : R) (σ1 σ2 : world),
    fischer 0.5 1 90 bulk_visc_default T_default empty_world = Ok (v1, σ1) ∧
    fischer 1 1 90 bulk_visc_default T_default empty_world = Ok (v2, σ2) ∧
    v2 < v1.
Proof.
  apply (fischer_decreasing_in_D 0.5 1 1 90 bulk_visc_default T_default empty_world);
    try (unfold T_default; lra).
  rewrite cos_right_angle; lra.
Defined.

(** X9 for the bulk viscosities [1e-3] and [2e-3]. *)
Lemma fischer_decreasing_in_bulk_visc_witness :
  ∃ (v1 v2 : R) (σ1 σ2 : world),
    fischer 0.5 1 90 1e-3 T_default empty_world = Ok (v1, σ1) ∧
    fischer 0.5 1 90 2e-3 T_default empty_world = Ok (v2, σ2) ∧
    v2 < v1.
Proof.
  apply (fischer_decreasing_in_bulk_visc 0.5 1 90 1e-3 2e-3 T_default empty_world);
    try lra.
  rewrite cos_right_angle; lra.
Defined.

(** X10 on [log f = (log x)²]. *)
Lemma log_parabola_exact_witness :
  ∃ σ' : world,
    log_derivatives_values lstsq_polyfit sample_x sample_curved width_default
        empty_world = Ok (([2 * 1; 2 * 1; 2 * 1], [2 * 1; 2 * 1; 2 * 1],
                           [2 * 1; 2 * 1; 2 * 1]), σ').
Proof.
  apply (log_parabola_exact lstsq_polyfit lstsq_polyfit_least_squares sample_x
           0 0 1 width_default empty_world); auto with sample.
Defined.

(** X11 on the sampled curve. *)
Lemma log_derivatives_inverse_abscissae_witness :
  ∃ (smooth_f df ddf : list R) (σ' : world),
    log_derivatives_values lstsq_polyfit sample_x sample_f width_default empty_world
      = Ok ((smooth_f, df, ddf), σ') ∧
    log_derivatives_values lstsq_polyfit (map (λ xi, 1 / xi) sample_x) sample_f
        width_default empty_world = Ok ((smooth_f, df, ddf), σ').
Proof.
  apply (log_derivatives_inverse_abscissae lstsq_polyfit lstsq_polyfit_least_squares
           sample_x sample_f width_default empty_world); auto with sample.
Defined.

(** X12 on the sampled curve. *)
Lemma log_derivatives_reversed_witness :
  ∃ (v : list R) (σ1 σ2 : world),
    log_derivatives_values lstsq_polyfit sample_x sample_f width_default empty_world
      = Ok ((v, v, v), σ1) ∧
    log_derivatives_values lstsq_polyfit (reverse sample_x) (reverse sample_f)
        width_default empty_world = Ok ((reverse v, reverse v, reverse v), σ2).
Proof.
  apply (log_derivatives_reversed lstsq_polyfit lstsq_polyfit_least_squares
           sample_x sample_f width_default empty_world); auto with sample.
Defined.


(** ** Curves that do not determine the fit *)

Lemma normal_det_one_sample (u ω : R) : normal_det [u] [ω] = 0.
Proof. unfold normal_det, det3, moment. cbn [map wsum]. ring. Qed.

(** [minimum_norm_polyfit] is a least-squares [polyfit]: a single sample
    never gives a well-posed problem, and elsewhere it is the exact
    solver. *)
Lemma minimum_norm_polyfit_least_squares : least_squares minimum_norm_polyfit.
Proof.
  intros x y w Hy Hw HΔ.
  destruct x as [|u [|u' x]].
  - exact (lstsq_polyfit_least_squares [] y w Hy Hw HΔ).
  - destruct w as [|ω [|ω' w]]; try discriminate Hw.
    exfalso. apply HΔ, normal_det_one_sample.
  - exact (lstsq_polyfit_least_squares (u :: u' :: x) y w Hy Hw HΔ).
Qed.

Lemma ln_2_pos : 0 < ln 2.
Proof. rewrite <- ln_1. apply ln_increasing; lra. Qed.

(** The fit of the single sample [(log 2, v)]. *)
Lemma one_point_curvatures (fi width : R) :
  curvatures minimum_norm_polyfit [2] [fi] width =
    [2 * (Np.log fi / (3 * Np.log 2 ^ 2))].
Proof.
  unfold curvatures, curvature, _parabolic_spline. cbn [map].
  unfold minimum_norm_polyfit, one_sample_fit.
  pose proof (gaussian_pos (Np.log 2) width (Np.log 2)) as Hω.
  pose proof ln_2_pos as H2. unfold Np.log in *.
  destruct (Req_EM_T (gaussian (ln 2) width (ln 2)) 0) as [E|_]; [lra|].
  destruct (Req_EM_T (ln 2) 0) as [E|_]; [lra|]. reflexivity.
Qed.

(** C10, refuted as stated: on the valid one-point curve [x = [2]],
    [f = [3]], and for a least-squares [polyfit] that is numpy's there,
    multiplying [f] by [2] changes the arrays that [log_derivatives]
    returns. *)
Lemma log_derivatives_one_point_not_invariant :
  least_squares minimum_norm_polyfit ∧
  Forall (Rlt 0) [2] ∧ Forall (Rlt 0) [3] ∧
  ∃ (d d' : R) (σ1 σ2 : world),
    log_derivatives_values minimum_norm_polyfit [2] [3] width_default empty_world
      = Ok (([d], [d], [d]), σ1) ∧
    log_derivatives_values minimum_norm_polyfit [2] (map (Rmult 2) [3])
        width_default empty_world = Ok (([d'], [d'], [d']), σ2) ∧
    d = 2 * (ln 3 / (3 * ln 2 ^ 2)) ∧
    d ≠ d'.
Proof.
  split; [apply minimum_norm_polyfit_least_squares|].
  split; [repeat constructor; lra|]. split; [repeat constructor; lra|].
  eexists _, _, _, _.
  split; [rewrite log_derivatives_values_run by done; cbv zeta;
          rewrite one_point_curvatures; reflexivity|].
  split; [rewrite log_derivatives_values_run by done; cbv zeta; cbn [map];
          rewrite one_point_curvatures; reflexivity|].
  split; [reflexivity|].
  unfold Np.log. pose proof ln_2_pos as H2.
  assert (H36 : ln 3 < ln (2 * 3)) by (apply ln_increasing; lra).
  assert (Hd : 0 < / (3 * ln 2 ^ 2)).
  { apply Rinv_0_lt_compat. nra. }
  unfold Rdiv. nra.
Qed.

(** C2 on the sampled log-parabola. *)
Lemma log_derivatives_shared_array_witness :
  (∃ (l : loc) (σ' : world),
     log_derivatives lstsq_polyfit sample_x sample_curved width_default empty_world
       = Ok ((l, l, l), σ') ∧
     w_heap σ' !! l
       = Some (curvatures lstsq_polyfit sample_x sample_curved width_default)) ∧
  ∃ (w G_s Gp Gpp : list R) (σ' : world),
    gse_unclipped lstsq_polyfit (λ _, 1) sample_x sample_curved 1 298 width_default
        empty_world = Ok ((w, G_s, Gp, Gpp), σ').
Proof.
  destruct (log_derivatives_shared_array lstsq_polyfit (λ _, 1)
              sample_x sample_curved width_default 1 298 empty_world eq_refl
              sample_x_pos sample_curved_pos ltac:(unfold width_default; lra))
    as (H1 & _ & _ & H4).
  split; [exact H1|].
  destruct (H4 ltac:(done) sample_curved_finite) as [σ' E].
  eexists _, _, _, _, σ'. exact E.
Defined.

(** C9, as amended, with equal lengths and values of [f] that are not
    positive. *)
Lemma log_derivatives_validation_witness :
  ∃ (l : loc) (σ' : world),
    log_derivatives lstsq_polyfit sample_x [-1; 0; 2] width_default empty_world
      = Ok ((l, l, l), σ').
Proof.
  apply (proj2 (log_derivatives_validation lstsq_polyfit (λ _, 1) sample_x
                  [-1; 0; 2] 1 298 clip_default width_default empty_world));
    [reflexivity | apply sample_x_pos | unfold width_default; lra].
Defined.
